(** * Feed watcher of the Tater bot: a shallow embedding of [rss.py] and of the
    page extractor of [plugins/web_search.py]

    Python values are modelled as follows.
    - A [str] is the list of its code points ([len] counts code points, so the
      newspaper emoji of the announcement header is one character).
    - Time stamps ([time.mktime], [time.time], the values kept in the Redis
      hash) are numbers of which the code only uses the order; they are
      integers here.  The hash keeps them as decimal text that [float] reads
      back unchanged, so the text layer is left out.
    - The Redis hash [rss:feeds] is a finite map from feed url to time stamp.
    - Calls that leave the process (HTTP, the feed parser, the language model,
      Discord, Telegram, Redis, the clock) are answered by a [world]: each
      answer may depend on everything that happened before, and each call is
      recorded in the trace of the run. *)

From Stdlib Require Import ZArith NArith Lia String Ascii.
From stdpp Require Import base option list sorting gmap.

Local Open Scope Z_scope.
Set Warnings "-register-all".

(** ** Python strings *)

Module PyStr.

Definition str := list N.

(** A literal of the source written in ASCII. *)
Definition lit (s : string) : str :=
  map N_of_ascii (list_ascii_of_string s).

Arguments lit : simpl never.

Definition NL : N := 10%N.
Definition SP : N := 32%N.

(** [str.isspace] on one code point: the characters [str.strip] and
    [str.split] without argument treat as white space. *)
Definition is_space (c : N) : bool :=
  ((9 <=? c) && (c <=? 13) || (28 <=? c) && (c <=? 32)
   || (c =? 133) || (c =? 160) || (c =? 5760)
   || (8192 <=? c) && (c <=? 8202)
   || (c =? 8232) || (c =? 8233) || (c =? 8239) || (c =? 8287)
   || (c =? 12288))%N.

Fixpoint lstrip (s : str) : str :=
  match s with
  | c :: s' => if is_space c then lstrip s' else s
  | [] => []
  end.

Definition rstrip (s : str) : str := reverse (lstrip (reverse s)).

Definition strip (s : str) : str := rstrip (lstrip s).

(** Index normalisation of slices and of the [start]/[end] arguments of the
    search methods: negative indices count from the end, everything is
    clamped to [0 .. len]. *)
Definition adjust (len i : Z) : Z :=
  if i <? 0 then Z.max 0 (i + len) else Z.min i len.

(** [s[:k]] and [s[k:]] *)
Definition slice_to (s : str) (k : Z) : str :=
  take (Z.to_nat (adjust (Z.of_nat (length s)) k)) s.

Definition slice_from (s : str) (k : Z) : str :=
  drop (Z.to_nat (adjust (Z.of_nat (length s)) k)) s.

(** Highest position of [c] in [s], if any. *)
Fixpoint last_index (c : N) (s : str) : option nat :=
  match s with
  | [] => None
  | x :: s' =>
      match last_index c s' with
      | Some i => Some (S i)
      | None => if (x =? c)%N then Some 0%nat else None
      end
  end.

(** [s.rfind(c, start, stop)] for a one-character needle: the highest index
    in the window, or [-1]. *)
Definition rfind (c : N) (s : str) (start stop : Z) : Z :=
  let len := Z.of_nat (length s) in
  let a := adjust len start in
  let b := adjust len stop in
  match last_index c (take (Z.to_nat (b - a)) (drop (Z.to_nat a) s)) with
  | Some i => a + Z.of_nat i
  | None => -1
  end.

(** [sep.join(parts)] *)
Fixpoint join (sep : str) (parts : list str) : str :=
  match parts with
  | [] => []
  | [p] => p
  | p :: ps => p ++ sep ++ join sep ps
  end.

(** [s.replace(old, new)]: non-overlapping occurrences, left to right.  An
    empty [old] is not used by the source and is left alone here. *)
Fixpoint starts_with (p s : str) : bool :=
  match p, s with
  | [], _ => true
  | a :: p', b :: s' => (a =? b)%N && starts_with p' s'
  | _ :: _, [] => false
  end.

Fixpoint replace_fuel (fuel : nat) (old new s : str) : str :=
  match fuel with
  | O => s
  | S fuel' =>
      match s with
      | [] => []
      | c :: s' =>
          if starts_with old s
          then new ++ replace_fuel fuel' old new (drop (length old) s)
          else c :: replace_fuel fuel' old new s'
      end
  end.

Definition replace (old new s : str) : str :=
  match old with
  | [] => s
  | _ => replace_fuel (length s) old new s
  end.

(** [s.split()] without argument: the maximal runs of characters that are
    not white space. *)
Fixpoint split_ws_aux (cur : str) (s : str) : list str :=
  match s with
  | [] => match cur with [] => [] | _ => [cur] end
  | c :: s' =>
      if is_space c
      then match cur with
           | [] => split_ws_aux [] s'
           | _ => cur :: split_ws_aux [] s'
           end
      else split_ws_aux (cur ++ [c]) s'
  end.

Definition split_ws (s : str) : list str := split_ws_aux [] s.

(** [s.splitlines()]: the line boundaries of Python, a carriage return
    followed by a line feed counting once; no empty last line. *)
Definition is_linebreak (c : N) : bool :=
  ((10 <=? c) && (c <=? 13) || (28 <=? c) && (c <=? 30)
   || (c =? 133) || (c =? 8232) || (c =? 8233))%N.

Fixpoint splitlines_aux (cur : str) (s : str) : list str :=
  match s with
  | [] => match cur with [] => [] | _ => [cur] end
  | c :: s' =>
      if is_linebreak c
      then match c, s' with
           | 13%N, 10%N :: s'' => cur :: splitlines_aux [] s''
           | _, _ => cur :: splitlines_aux [] s'
           end
      else splitlines_aux (cur ++ [c]) s'
  end.

Definition splitlines (s : str) : list str := splitlines_aux [] s.

Definition all_space (s : str) : Prop := Forall (fun c => is_space c = true) s.

End PyStr.

Import PyStr.

(** ** [split_message] (rss.py, lines 70-84) *)

(** The three assignments to [split_point] in the loop body. *)
Definition split_point (message_content : str) (chunk_size : Z) : Z :=
  let split_point := rfind NL message_content 0 chunk_size in
  let split_point :=
    if split_point =? -1 then rfind SP message_content 0 chunk_size
    else split_point in
  if split_point =? -1 then chunk_size else split_point.

(** The [while] loop.  [fuel] bounds the number of iterations; [None] means
    the bound was reached with the loop condition still true. *)
Fixpoint split_loop (fuel : nat) (message_parts : list str)
    (message_content : str) (chunk_size : Z) : option (list str) :=
  if Z.of_nat (length message_content) >? chunk_size then
    match fuel with
    | O => None
    | S fuel' =>
        let sp := split_point message_content chunk_size in
        split_loop fuel'
          (message_parts ++ [slice_to message_content sp])
          (strip (slice_from message_content sp))
          chunk_size
    end
  else Some (message_parts ++ [message_content]).

(** [split_message]: for a chunk size of at least one, one more iteration
    than the message has characters is always enough. *)
Definition split_message (message_content : str) (chunk_size : Z)
  : option (list str) :=
  split_loop (S (length message_content)) [] message_content chunk_size.


(** ** Parsed pages (BeautifulSoup) *)

(** A parsed page: text, tags with their children, and the nodes that
    [get_text] leaves out (comments, doctype). *)
Inductive node :=
| Text (s : str)
| Other (s : str)
| Tag (name : str) (children : list node).

Definition is_tag_named (names : list str) (n : node) : bool :=
  match n with
  | Tag nm _ => bool_decide (nm ∈ names)
  | _ => false
  end.

(** [for element in soup(names): element.decompose()]: every tag with one
    of the names goes away with all it contains. *)
Fixpoint decompose_all (names : list str) (n : node) : node :=
  match n with
  | Tag nm ch =>
      Tag nm
        ((fix go (l : list node) : list node :=
            match l with
            | [] => []
            | c :: l' =>
                if is_tag_named names c then go l'
                else decompose_all names c :: go l'
            end) ch)
  | _ => n
  end.

(** The strings below a node, in document order. *)
Fixpoint all_strings (n : node) : list str :=
  match n with
  | Text s => [s]
  | Other _ => []
  | Tag _ ch =>
      (fix go (l : list node) : list str :=
         match l with
         | [] => []
         | c :: l' => all_strings c ++ go l'
         end) ch
  end.

(** [n.get_text(separator=sep)] *)
Definition get_text (sep : str) (n : node) : str := join sep (all_strings n).

(** [n.find(name)]: the first tag of that name below [n], in document
    order.  [soup.body] is [soup.find("body")]. *)
Fixpoint find (name : str) (n : node) : option node :=
  match n with
  | Tag _ ch =>
      (fix go (l : list node) : option node :=
         match l with
         | [] => None
         | c :: l' =>
             match c with
             | Tag nm _ =>
                 if bool_decide (nm = name) then Some c
                 else match find name c with
                      | Some r => Some r
                      | None => go l'
                      end
             | _ => go l'
             end
         end) ch
  | _ => None
  end.

Definition unwanted : list str :=
  [lit "script"; lit "style"; lit "header"; lit "footer"; lit "nav";
   lit "aside"].

(** [lines = [line.strip() for line in text.splitlines() if line.strip()]]
    followed by ["\n".join(lines)]. *)
Definition clean_lines (text : str) : str :=
  join [NL]
    (omap (fun line => match strip line with [] => None | l => Some l end)
       (splitlines text)).

(** The body of the [try] of [fetch_web_summary] in rss.py after the status
    check (lines 51-59). *)
Definition rss_article_text (soup : node) : str :=
  let soup := decompose_all unwanted soup in
  clean_lines (get_text [NL] soup).

(** The same place in [WebSearchPlugin.fetch_web_summary]
    (plugins/web_search.py, lines 70-85). *)
Definition web_search_word_cap : nat := 3000.

Definition web_search_article_text (soup : node) : option str :=
  let soup := decompose_all unwanted soup in
  let container :=
    match find (lit "article") soup with
    | Some c => Some c
    | None =>
        match find (lit "main") soup with
        | Some c => Some c
        | None => find (lit "body") soup
        end
    end in
  match container with
  | None => None
  | Some container =>
      let article_text := clean_lines (get_text [NL] container) in
      if (web_search_word_cap <? length (split_ws article_text))%nat
      then Some (join [SP] (take web_search_word_cap (split_ws article_text)))
      else Some article_text
  end.

(** ** The outside world and the effects of the code *)

Record response := { status_code : Z; soup : node }.

(** [summarization_response['message'].get('content', '')] reads a response
    that may lack the message, or the content of the message. *)
Inductive chat_response :=
| NoMessage
| Message (content : option str).

Record entry := {
  title : option str;
  link : option str;
  (** [time.mktime(entry.published_parsed)] when the key is present *)
  published_parsed : option Z
}.

Record parsed_feed := {
  bozo : bool;
  feed_title : option str;
  entries : list entry
}.

Record telegram_settings := {
  telegram_bot_token : option str;
  telegram_chat_id : option str
}.

(** How a call ends: with a value, with an exception that
    [except Exception] catches (kept as its [str(e)]), or not at all. *)
Inductive outcome (A : Type) :=
| Return (a : A)
| Raise (e : str)
| Hang.
Arguments Return {A} a.
Arguments Raise {A} e.
Arguments Hang {A}.

Inductive event :=
| EvGet (url : str)                       (* requests.get *)
| EvChat (prompt : str)                   (* ollama_client.chat *)
| EvGetChannel                            (* bot.get_channel *)
| EvSend (chunk : str)                    (* channel.send *)
| EvPluginEnabled (name : str)
| EvPluginSettings (name : str)
| EvPost (url text : str)                 (* requests.post *)
| EvParse (url : str)                     (* feedparser.parse *)
| EvTime                                  (* time.time *)
| EvHset (url : str) (ts : Z)
| EvHdel (url : str)
| EvHgetall
| EvSleep
| EvProcess (feed_title : str) (e : entry). (* process_entry entered *)

Definition trace := list event.

Record world := {
  requests_get : trace -> str -> outcome response;
  ollama_chat : trace -> str -> outcome chat_response;
  (** whether the bot knows the channel *)
  bot_get_channel : trace -> outcome bool;
  channel_send : trace -> str -> outcome unit;
  get_plugin_enabled : trace -> str -> outcome bool;
  get_plugin_settings : trace -> str -> outcome telegram_settings;
  requests_post : trace -> str -> str -> outcome unit;
  feedparser_parse : trace -> str -> outcome parsed_feed;
  time_time : trace -> Z;
  (** whether a Redis command issued now gets through *)
  redis_up : trace -> bool
}.

(** What a piece of code did: the calls it made, the hash it left, and how
    it ended. *)
Record run (A : Type) := Run {
  events : trace;
  store_after : gmap str Z;
  result : outcome A
}.
Arguments Run {A} events store_after result.
Arguments events {A} r.
Arguments store_after {A} r.
Arguments result {A} r.

(** A computation reads the history so far and the hash. *)
Definition M (A : Type) : Type := trace -> gmap str Z -> run A.

Definition ret {A} (a : A) : M A := fun _ s => Run [] s (Return a).

Definition bind {A B} (m : M A) (f : A -> M B) : M B :=
  fun h s =>
    let r := m h s in
    match result r with
    | Return a =>
        let r' := f a (h ++ events r) (store_after r) in
        Run (events r ++ events r') (store_after r') (result r')
    | Raise e => Run (events r) (store_after r) (Raise e)
    | Hang => Run (events r) (store_after r) Hang
    end.

(** [try: m except Exception as e: handler e] *)
Definition try_except {A} (m : M A) (handler : str -> M A) : M A :=
  fun h s =>
    let r := m h s in
    match result r with
    | Raise e =>
        let r' := handler e (h ++ events r) (store_after r) in
        Run (events r ++ events r') (store_after r') (result r')
    | _ => r
    end.

(** A call answered by the world. *)
Definition call {A} (ev : event) (answer : trace -> outcome A) : M A :=
  fun h s => Run [ev] s (answer h).

Definition raise {A} (e : str) : M A := fun _ s => Run [] s (Raise e).

Definition lift_option {A} (o : option A) : M A :=
  fun _ s => Run [] s (match o with Some a => Return a | None => Hang end).

#[export] Instance M_ret : MRet M := @ret.
#[export] Instance M_bind : MBind M := fun A B f m => bind m f.

(** [for x in l: body x] *)
Fixpoint for_each {A} (l : list A) (body : A -> M unit) : M unit :=
  match l with
  | [] => ret tt
  | x :: l' => body x;; for_each l' body
  end.

(** ** Text helpers of rss.py *)

(** [format_summary_for_discord] (lines 64-68) *)
Definition format_summary_for_discord (summary : str) : str :=
  replace (lit "### ") (lit "# ") summary.

(** [re.sub(r"\*\*(.+?)\*\*", r"<b>\1</b>", s)]: the shortest non-empty
    group without a line feed that is followed by two stars. *)
Definition STAR2 : str := lit "**".

Fixpoint find_close (grp : str) (s : str) : option (str * str) :=
  match s with
  | [] => None
  | c :: s' =>
      if match grp with [] => false | _ => starts_with STAR2 s end
      then Some (grp, drop 2 s)
      else if (c =? NL)%N then None
      else find_close (grp ++ [c]) s'
  end.

Fixpoint bold_sub (fuel : nat) (s : str) : str :=
  match fuel with
  | O => s
  | S fuel' =>
      match s with
      | [] => []
      | c :: s' =>
          if starts_with STAR2 s then
            match find_close [] (drop 2 s) with
            | Some (grp, rest) =>
                lit "<b>" ++ grp ++ lit "</b>" ++ bold_sub fuel' rest
            | None => c :: bold_sub fuel' s'
            end
          else c :: bold_sub fuel' s'
      end
  end.

(** [html.escape(s, quote=False)] *)
Definition html_escape (s : str) : str :=
  replace (lit ">") (lit "&gt;")
    (replace (lit "<") (lit "&lt;") (replace (lit "&") (lit "&amp;") s)).

(** Lines 214-221: the text sent to Telegram. *)
Definition telegram_text (announcement : str) : str :=
  let telegram_message := bold_sub (length announcement) announcement in
  let telegram_message := html_escape telegram_message in
  replace (lit "&lt;/b&gt;") (lit "</b>")
    (replace (lit "&lt;b&gt;") (lit "<b>") telegram_message).

(** Lines 185-190 *)
Definition compose_announcement (feed_title entry_title link
    formatted_summary : str) : str :=
  [128240%N] ++ lit " **New article from " ++ feed_title ++ lit "**" ++ [NL]
  ++ lit "**" ++ entry_title ++ lit "**" ++ [NL]
  ++ link ++ [NL; NL]
  ++ formatted_summary.

Definition NO_SUMMARY : str :=
  lit "Could not retrieve a summary for this article.".
Definition EMPTY_SUMMARY : str :=
  lit "Failed to generate a summary from the article.".
Definition ERROR_PREFIX : str := lit "Error summarizing article: ".

(** Lines 162-166 *)
Definition summarization_prompt (article_text : str) : str :=
  lit "Please summarize the following article in a clear and engaging format for Discord. "
  ++ lit "Include a title and use bullet points for the main takeaways:"
  ++ [NL; NL] ++ article_text ++ [NL; NL] ++ lit "Summary:".

(** ** Sorting as [sorted(entries, key=...)] does: ascending and stable *)

Fixpoint insert_by {A} (key : A -> Z) (x : A) (l : list A) : list A :=
  match l with
  | [] => [x]
  | y :: l' => if key x <=? key y then x :: l else y :: insert_by key x l'
  end.

Definition sorted {A} (l : list A) (key : A -> Z) : list A :=
  foldr (insert_by key) [] l.

(** ** The feed manager *)

Section RSSManager.

Variable w : world.
(** [MAX_RESPONSE_LENGTH] of the environment, 1500 when unset *)
Variable max_response_length : Z.

(** *** Redis commands on the hash [rss:feeds] *)

Definition REDIS_DOWN : str := lit "redis".

Definition hset (feed_url : str) (ts : Z) : M unit :=
  fun h s =>
    if redis_up w h then Run [EvHset feed_url ts] (<[feed_url := ts]> s) (Return tt)
    else Run [EvHset feed_url ts] s (Raise REDIS_DOWN).

(** [hdel] answers the number of fields it removed. *)
Definition hdel (feed_url : str) : M Z :=
  fun h s =>
    if redis_up w h
    then Run [EvHdel feed_url] (delete feed_url s)
           (Return (match s !! feed_url with Some _ => 1 | None => 0 end))
    else Run [EvHdel feed_url] s (Raise REDIS_DOWN).

Definition hgetall : M (gmap str Z) :=
  fun h s =>
    if redis_up w h then Run [EvHgetall] s (Return s)
    else Run [EvHgetall] s (Raise REDIS_DOWN).

(** *** [fetch_web_summary] of rss.py (lines 42-62) *)
Definition fetch_web_summary (webpage_url : str) : M (option str) :=
  try_except
    (response ← call (EvGet webpage_url) (fun h => requests_get w h webpage_url);
     if negb (status_code response =? 200) then mret None
     else mret (Some (rss_article_text (soup response))))
    (fun _ => mret None).

(** *** [WebSearchPlugin.fetch_web_summary] (plugins/web_search.py, 61-88) *)
Definition web_search_fetch_web_summary (webpage_url : str) : M (option str) :=
  try_except
    (resp ← call (EvGet webpage_url) (fun h => requests_get w h webpage_url);
     if negb (status_code resp =? 200) then mret None
     else mret (web_search_article_text (soup resp)))
    (fun _ => mret None).

(** *** [RSSManager.add_feed] (lines 97-120) *)

(** The loop of lines 106-110, started from [last_ts = 0.0]. *)
Definition newest_published (es : list entry) : Z :=
  fold_left
    (fun last_ts e =>
       match published_parsed e with
       | Some entry_ts => if entry_ts >? last_ts then entry_ts else last_ts
       | None => last_ts
       end)
    es 0.

Definition add_feed (feed_url : str) : M bool :=
  parsed_feed ← call (EvParse feed_url) (fun h => feedparser_parse w h feed_url);
  if bozo parsed_feed then mret false
  else
    last_ts ←
      match entries parsed_feed with
      | [] => call EvTime (fun h => Return (time_time w h))
      | es => mret (newest_published es)
      end;
    try_except
      (hset feed_url last_ts;; mret true)
      (fun _ => mret false).

(** *** [RSSManager.remove_feed] (lines 122-134) *)
Definition remove_feed (feed_url : str) : M bool :=
  try_except
    (removed ← hdel feed_url;
     if negb (removed =? 0) then mret true else mret false)
    (fun _ => mret false).

(** *** [RSSManager.get_feeds] (lines 136-143) *)
Definition get_feeds : M (gmap str Z) :=
  try_except hgetall (fun _ => mret ∅).

(** *** [RSSManager.process_entry] (lines 145-232) *)

(** Lines 156-180: the article is fetched and the summary text chosen. *)
Definition summary_text_of (link : str) : M str :=
  article_text ← fetch_web_summary link;
  match article_text return M str with
  | None | Some [] => mret NO_SUMMARY
  | Some article_text =>
      try_except
        (summarization_response ←
           call (EvChat (summarization_prompt article_text))
             (fun h => ollama_chat w h (summarization_prompt article_text));
         match summarization_response return M str with
         | NoMessage => raise (lit "'message'")
         | Message content =>
             match strip (default [] content) return M str with
             | [] => mret EMPTY_SUMMARY
             | summary_text => mret summary_text
             end
         end)
        (fun e => mret (ERROR_PREFIX ++ e))
  end.

(** Lines 195-203: the Discord channel. *)
Definition send_to_channel (chunks : list str) : M unit :=
  try_except
    (channel ← call EvGetChannel (bot_get_channel w);
     if channel : bool
     then for_each chunks (fun chunk => call (EvSend chunk) (fun h => channel_send w h chunk))
     else mret tt)
    (fun _ => mret tt).

Definition is_truthy (o : option str) : bool :=
  match o with
  | None | Some [] => false
  | Some _ => true
  end.

(** Lines 205-232: Telegram. *)
Definition send_to_telegram (announcement : str) : M unit :=
  enabled ← call (EvPluginEnabled (lit "telegram_notifier"))
              (fun h => get_plugin_enabled w h (lit "telegram_notifier"));
  if enabled : bool then
    settings ← call (EvPluginSettings (lit "Telegram"))
                 (fun h => get_plugin_settings w h (lit "Telegram"));
    if is_truthy (telegram_bot_token settings) && is_truthy (telegram_chat_id settings)
    then
      try_except
        (let telegram_url :=
           lit "https://api.telegram.org/bot"
           ++ default [] (telegram_bot_token settings) ++ lit "/sendMessage" in
         call (EvPost telegram_url (telegram_text announcement))
           (fun h => requests_post w h telegram_url (telegram_text announcement)))
        (fun _ => mret tt)
    else mret tt
  else mret tt.

(** Lines 150-190: from the entry to the text of the announcement. *)
Definition announcement_of (feed_title : str) (e : entry) : M str :=
  let entry_title := default (lit "No Title") (title e) in
  let link := default [] (link e) in
  summary_text ← summary_text_of link;
  let formatted_summary := format_summary_for_discord summary_text in
  mret (compose_announcement feed_title entry_title link formatted_summary).

Definition process_entry (feed_title : str) (e : entry) : M unit :=
  call (EvProcess feed_title e) (fun _ => Return tt);;
  announcement ← announcement_of feed_title e;
  chunks ← lift_option (split_message announcement max_response_length);
  send_to_channel chunks;;
  send_to_telegram announcement.

(** *** [RSSManager.poll_feeds] (lines 234-266) *)

(** The sort key of line 251. *)
Definition sort_key (e : entry) : Z := default 0 (published_parsed e).

(** The loop of lines 253-260; it yields the final [new_last_ts]. *)
Fixpoint entries_loop (feed_title : str) (last_ts : Z)
    (sorted_entries : list entry) (new_last_ts : Z) : M Z :=
  match sorted_entries with
  | [] => mret new_last_ts
  | e :: rest =>
      match published_parsed e with
      | None => entries_loop feed_title last_ts rest new_last_ts
      | Some entry_ts =>
          if entry_ts >? last_ts then
            process_entry feed_title e;;
            entries_loop feed_title last_ts rest
              (if entry_ts >? new_last_ts then entry_ts else new_last_ts)
          else entries_loop feed_title last_ts rest new_last_ts
      end
  end.

(** Lines 240-263: the [try] block run for one feed of the snapshot. *)
Definition poll_feed_body (feed_url : str) (last_ts : Z) : M unit :=
  parsed_feed ← call (EvParse feed_url) (fun h => feedparser_parse w h feed_url);
  if bozo parsed_feed then mret tt
  else
    let feed_title := default feed_url (feed_title parsed_feed) in
    let new_last_ts := last_ts in
    let sorted_entries := sorted (entries parsed_feed) sort_key in
    new_last_ts ← entries_loop feed_title last_ts sorted_entries new_last_ts;
    if new_last_ts >? last_ts then hset feed_url new_last_ts else mret tt.

(** Lines 239-265: the block with its [except Exception]. *)
Definition poll_feed (feed : str * Z) : M unit :=
  try_except (poll_feed_body feed.1 feed.2) (fun _ => mret tt).

(** One turn of the [while True] of line 236. *)
Definition poll_cycle : M unit :=
  feeds ← get_feeds;
  for_each (map_to_list feeds) poll_feed;;
  call EvSleep (fun _ => Return tt).

(** The first [n] turns of the loop. *)
Fixpoint poll_feeds (n : nat) : M unit :=
  match n with
  | O => mret tt
  | S n' => poll_cycle;; poll_feeds n'
  end.

End RSSManager.

(** ** Putting a split message back together *)

(** The chunks give the text back when, after each chunk but the last, white
    space is put back in front of what follows (the white space [strip] took
    from the front of the remainder). *)
Inductive rebuilds_lead : str -> list str -> Prop :=
| rebuilds_lead_last text : rebuilds_lead text [text]
| rebuilds_lead_cut text chunk lw rest chunks :
    text = chunk ++ lw ++ rest ->
    all_space lw ->
    rebuilds_lead rest chunks ->
    rebuilds_lead text (chunk :: chunks).

(** The same with the white space [strip] took from both ends of the
    remainder. *)
Inductive rebuilds_trim : str -> list str -> Prop :=
| rebuilds_trim_last text : rebuilds_trim text [text]
| rebuilds_trim_cut text chunk lw rest tw chunks :
    text = chunk ++ lw ++ rest ++ tw ->
    all_space lw ->
    all_space tw ->
    rebuilds_trim rest chunks ->
    rebuilds_trim text (chunk :: chunks).

(** ** Reading a trace *)

(** The entries handed to [process_entry], in the order of the calls. *)
Fixpoint processed (t : trace) : list entry :=
  match t with
  | [] => []
  | EvProcess _ e :: t' => e :: processed t'
  | _ :: t' => processed t'
  end.

(** The entries the loop of [poll_feeds] lets through: a published time
    stamp is there and lies strictly above the watermark. *)
Definition is_new (last_ts : Z) (e : entry) : bool :=
  match published_parsed e with
  | Some entry_ts => entry_ts >? last_ts
  | None => false
  end.

(** The published time stamps of a feed. *)
Definition published_stamps (es : list entry) : list Z :=
  omap published_parsed es.

(** The initial watermark in the words of the specification: the largest
    published time stamp, or the clock when no entry has one. *)
Definition initial_watermark_claimed (now : Z) (es : list entry) : Z :=
  match published_stamps es with
  | [] => now
  | t :: ts => foldr Z.max t ts
  end.

(** ** Operations on the store, one after the other *)

Inductive store_op :=
| OpAddFeed (feed_url : str)
| OpRemoveFeed (feed_url : str)
| OpPollCycle.

Definition run_op (w : world) (max_response_length : Z) (op : store_op)
  : M unit :=
  match op with
  | OpAddFeed feed_url => add_feed w feed_url;; mret tt
  | OpRemoveFeed feed_url => remove_feed w feed_url;; mret tt
  | OpPollCycle => poll_cycle w max_response_length
  end.

(** A sequence of operations; one that raises does not stop the next (the
    commands and the poller are separate callers). *)
Fixpoint run_ops (w : world) (max_response_length : Z) (ops : list store_op)
  : M unit :=
  match ops with
  | [] => mret tt
  | op :: ops' =>
      try_except (run_op w max_response_length op) (fun _ => mret tt);;
      run_ops w max_response_length ops'
  end.

(** The entries of a feed as the poller sees them at this point of the
    history: none when the parser raises or flags the document. *)
Definition feed_entries (w : world) (h : trace) (feed_url : str) : list entry :=
  match feedparser_parse w h feed_url with
  | Return parsed_feed => if bozo parsed_feed then [] else entries parsed_feed
  | _ => []
  end.

(** The entries selected for a feed: sorted as line 249 does, then let
    through by the tests of lines 254-257. *)
Definition selected (last_ts : Z) (es : list entry) : list entry :=
  List.filter (is_new last_ts) (sorted es sort_key).

(** ** Vocabulary of the properties *)

(** Code that neither writes the hash nor enters [process_entry]. *)
Definition outside {A} (m : M A) : Prop :=
  forall h s, store_after (m h s) = s /\ processed (events (m h s)) = [].

Definition not_process (ev : event) : Prop :=
  match ev with EvProcess _ _ => False | _ => True end.

(** Order of two elements by their sort key. *)
Definition key_le {A} (key : A -> Z) (a b : A) : Prop := key a <= key b.

(** A watermark before ([o1]) and after ([o2]) some operations: if it is
    still there, it was there before and has not gone down. *)
Definition watermark_le (o1 o2 : option Z) : Prop :=
  match o2 with
  | None => True
  | Some v' => match o1 with Some v => v <= v' | None => False end
  end.

(** ** Concrete worlds *)

Definition feed_a : str := lit "https://example.org/a.xml".
Definition feed_b : str := lit "https://example.org/b.xml".

Definition entry_at (t : Z) (name : string) : entry :=
  {| title := Some (lit name);
     link := Some (lit "https://example.org/" ++ lit name);
     published_parsed := Some t |}.

Definition undated_entry : entry :=
  {| title := Some (lit "undated");
     link := Some (lit "https://example.org/undated");
     published_parsed := None |}.

(** A page with a menu next to the article. *)
Definition page_with_menu : node :=
  Tag (lit "[document]")
    [Tag (lit "html")
       [Tag (lit "body")
          [Tag (lit "div") [Text (lit "Menu")];
           Tag (lit "article") [Tag (lit "p") [Text (lit "Story")]]]]].

Definition telegram_on : telegram_settings :=
  {| telegram_bot_token := Some (lit "TOKEN");
     telegram_chat_id := Some (lit "42") |}.

(** Every collaborator answers; the feed lists its newest entry first. *)
Definition calm_world : world :=
  {| requests_get := fun _ _ => Return {| status_code := 200; soup := page_with_menu |};
     ollama_chat := fun _ _ => Return (Message (Some (lit " A summary. ")));
     bot_get_channel := fun _ => Return true;
     channel_send := fun _ _ => Return tt;
     get_plugin_enabled := fun _ _ => Return true;
     get_plugin_settings := fun _ _ => Return telegram_on;
     requests_post := fun _ _ _ => Return tt;
     feedparser_parse := fun _ _ =>
       Return {| bozo := false;
                 feed_title := Some (lit "Feed A");
                 entries := [entry_at 300 "third"; entry_at 200 "second";
                             entry_at 100 "first"] |};
     time_time := fun _ => 1000;
     redis_up := fun _ => true |}.

(** The same with both sinks raising on every send. *)
Definition broken_sinks_world : world :=
  {| requests_get := requests_get calm_world;
     ollama_chat := ollama_chat calm_world;
     bot_get_channel := bot_get_channel calm_world;
     channel_send := fun _ _ => Raise (lit "discord is down");
     get_plugin_enabled := get_plugin_enabled calm_world;
     get_plugin_settings := get_plugin_settings calm_world;
     requests_post := fun _ _ _ => Raise (lit "telegram is down");
     feedparser_parse := feedparser_parse calm_world;
     time_time := time_time calm_world;
     redis_up := redis_up calm_world |}.

(** A feed whose only entry has no published time stamp. *)
Definition undated_world : world :=
  {| requests_get := requests_get calm_world;
     ollama_chat := ollama_chat calm_world;
     bot_get_channel := bot_get_channel calm_world;
     channel_send := channel_send calm_world;
     get_plugin_enabled := get_plugin_enabled calm_world;
     get_plugin_settings := get_plugin_settings calm_world;
     requests_post := requests_post calm_world;
     feedparser_parse := fun _ _ =>
       Return {| bozo := false; feed_title := None; entries := [undated_entry] |};
     time_time := time_time calm_world;
     redis_up := redis_up calm_world |}.

(** The language model raises with the given message. *)
Definition failing_model_world (message : str) : world :=
  {| requests_get := requests_get calm_world;
     ollama_chat := fun _ _ => Raise message;
     bot_get_channel := bot_get_channel calm_world;
     channel_send := channel_send calm_world;
     get_plugin_enabled := get_plugin_enabled calm_world;
     get_plugin_settings := get_plugin_settings calm_world;
     requests_post := requests_post calm_world;
     feedparser_parse := feedparser_parse calm_world;
     time_time := time_time calm_world;
     redis_up := redis_up calm_world |}.

#[export] Instance store_op_eq_dec : EqDecision store_op.
Proof. solve_decision. Defined.

(** Code out of which no exception comes. *)
Definition no_raise {A} (m : M A) : Prop :=
  forall h s e, result (m h s) ≠ Raise e.

(** The announcement whose body is the given summary, as [announcement_of]
    composes it. *)
Definition announcement_with (feed_title : str) (e : entry) (summary_text : str)
  : str :=
  compose_announcement feed_title (default (lit "No Title") (title e))
    (default [] (link e)) (format_summary_for_discord summary_text).

(** The Telegram plugin is switched on and has its token and chat id. *)
Definition telegram_configured (w : world) : Prop :=
  forall h,
    get_plugin_enabled w h (lit "telegram_notifier") = Return true
    /\ exists settings,
         get_plugin_settings w h (lit "Telegram") = Return settings
         /\ is_truthy (telegram_bot_token settings)
            && is_truthy (telegram_chat_id settings) = true.

(** The bot finds the channel of the announcements. *)
Definition channel_configured (w : world) : Prop :=
  forall h, bot_get_channel w h = Return true.

(** A page of 3001 words. *)
Definition long_page : node :=
  Tag (lit "[document]")
    [Tag (lit "html")
       [Tag (lit "body") [Text (join [SP] (replicate 3001 (lit "w")))]]].

(** A word: not empty and free of white space. *)
Definition is_word (s : str) : Prop :=
  s ≠ [] /\ Forall (fun c => is_space c = false) s.

(** ** Further vocabulary *)

(** The largest published time stamp among the entries selected above a
    watermark, or the watermark when none is selected: the value the loop
    of lines 253-260 leaves in [new_last_ts] when it runs to its end. *)
Definition newest_selected (last_ts : Z) (es : list entry) : Z :=
  foldr Z.max last_ts (published_stamps (selected last_ts es)).

(** Redis refuses every command. *)
Definition redis_down_world : world :=
  {| requests_get := requests_get calm_world;
     ollama_chat := ollama_chat calm_world;
     bot_get_channel := bot_get_channel calm_world;
     channel_send := channel_send calm_world;
     get_plugin_enabled := get_plugin_enabled calm_world;
     get_plugin_settings := get_plugin_settings calm_world;
     requests_post := requests_post calm_world;
     feedparser_parse := feedparser_parse calm_world;
     time_time := time_time calm_world;
     redis_up := fun _ => false |}.

(** Code all of whose calls satisfy [P]. *)
Definition emits {A} (P : event -> Prop) (m : M A) : Prop :=
  forall h s, Forall P (events (m h s)).

(** No chunk longer than [n] goes to the channel. *)
Definition send_within (n : Z) (ev : event) : Prop :=
  match ev with
  | EvSend chunk => Z.of_nat (length chunk) <= n
  | _ => True
  end.

Definition not_send (ev : event) : Prop :=
  match ev with EvSend _ => False | _ => True end.

Definition not_post (ev : event) : Prop :=
  match ev with EvPost _ _ => False | _ => True end.

(** The chunks sent to the channel, in the order of the calls. *)
Fixpoint sent (t : trace) : list str :=
  match t with
  | [] => []
  | EvSend chunk :: t' => chunk :: sent t'
  | _ :: t' => sent t'
  end.

(** The texts posted to Telegram, in the order of the calls. *)
Fixpoint posted (t : trace) : list str :=
  match t with
  | [] => []
  | EvPost _ text :: t' => text :: posted t'
  | _ :: t' => posted t'
  end.

(** *** [WebSearchPlugin.safe_send] (plugins/web_search.py, lines 104-109);
    [WebSearchPlugin.split_message] (lines 90-102) is the function of the
    same name of rss.py, statement for statement. *)
Definition safe_send (w : world) (content : str) : M unit :=
  if Z.of_nat (length content) <=? 2000
  then call (EvSend content) (fun h => channel_send w h content)
  else
    chunks ← lift_option (split_message content 1900);
    for_each chunks
      (fun chunk => call (EvSend chunk) (fun h => channel_send w h chunk)).

(** Telegram is switched off and the bot does not know the channel. *)
Definition no_sinks_world : world :=
  {| requests_get := requests_get calm_world;
     ollama_chat := ollama_chat calm_world;
     bot_get_channel := fun _ => Return false;
     channel_send := channel_send calm_world;
     get_plugin_enabled := fun _ _ => Return false;
     get_plugin_settings := get_plugin_settings calm_world;
     requests_post := requests_post calm_world;
     feedparser_parse := feedparser_parse calm_world;
     time_time := time_time calm_world;
     redis_up := redis_up calm_world |}.

Definition not_space (c : N) : bool := negb (is_space c).

(** A chunk that begins with a character that is not white space. *)
Definition starts_with_text (c : str) : Prop :=
  match c with
  | [] => False
  | x :: _ => is_space x = false
  end.

(** *** [WebSearchPlugin.extract_json] (plugins/web_search.py, lines 37-40)

    [re.search(r'(\{.*\})', text, re.DOTALL)]: the match starts at the first
    opening brace that has a closing brace somewhere after it, and the
    greedy [.*], which also runs over line feeds, ends it at the last closing
    brace of the text. *)
Definition LBRACE : N := 123%N.
Definition RBRACE : N := 125%N.

Fixpoint first_index (c : N) (s : str) : option nat :=
  match s with
  | [] => None
  | x :: s' =>
      if (x =? c)%N then Some 0%nat
      else match first_index c s' with
           | Some i => Some (S i)
           | None => None
           end
  end.

Definition extract_json (text : str) : option str :=
  match first_index LBRACE text with
  | None => None
  | Some i =>
      match last_index RBRACE (drop (S i) text) with
      | None => None
      | Some k => Some (take (S (S k)) (drop i text))
      end
  end.

(** What [splitlines] goes on with after a line boundary [c]: a line feed
    right after a carriage return belongs to the boundary. *)
Definition after_break (c : N) (s : str) : str :=
  match c, s with
  | 13%N, 10%N :: s' => s'
  | _, _ => s
  end.

Definition no_break (c : N) : Prop := is_linebreak c = false.

(** ** Telegram markup *)

Definition LT : N := 60%N.
Definition GT : N := 62%N.

(** A text in which every angle bracket belongs to a bold tag, opening or
    closing. *)
Inductive tagged : str -> Prop :=
| tagged_nil : tagged []
| tagged_char c s : c ≠ LT -> c ≠ GT -> tagged s -> tagged (c :: s)
| tagged_open s : tagged s -> tagged (lit "<b>" ++ s)
| tagged_close s : tagged s -> tagged (lit "</b>" ++ s).

(** The page fetches and the calls of the language model in a trace. *)
Fixpoint fetched (t : trace) : list str :=
  match t with
  | [] => []
  | EvGet url :: t' => url :: fetched t'
  | _ :: t' => fetched t'
  end.

Fixpoint prompted (t : trace) : list str :=
  match t with
  | [] => []
  | EvChat prompt :: t' => prompt :: prompted t'
  | _ :: t' => prompted t'
  end.

Definition not_get (ev : event) : Prop :=
  match ev with EvGet _ => False | _ => True end.

Definition not_chat (ev : event) : Prop :=
  match ev with EvChat _ => False | _ => True end.

(** ** [send_waiting_message] (helpers.py, lines 36-67)

    The two callbacks are optional; a callback that returns a coroutine is
    awaited, so either way it runs before the function goes on.  The model
    name, the context length and the keep-alive read from the client are
    arguments of the one call and do not bear on what follows. *)
Definition send_waiting_message (w : world) (prompt_text : str)
    (save_callback send_callback : option (str -> M unit)) : M str :=
  waiting_response ←
    call (EvChat prompt_text) (fun h => ollama_chat w h prompt_text);
  match waiting_response return M str with
  | NoMessage => raise (lit "'message'")
  | Message content =>
      let waiting_text := strip (default [] content) in
      let waiting_text :=
        match waiting_text with [] => prompt_text | _ => waiting_text end in
      match save_callback with
      | Some save => save waiting_text
      | None => mret tt
      end;;
      match send_callback with
      | Some send => send waiting_text
      | None => mret tt
      end;;
      mret waiting_text
  end.

(** ** The link lists of plugins/premiumize_download.py *)

Module Premiumize.

(** One item of the answer of Premiumize: a dictionary with the keys
    ['path'] and ['link'], both strings. *)
Record file := { path : str; link : str }.

(** [s.replace(old, new)] where [old] may be empty: Python then puts [new]
    in front of every character and at the end. *)
Definition replace_any (old new s : str) : str :=
  match old with
  | [] => new ++ flat_map (fun c => c :: new) s
  | _ => replace old new s
  end.

(** [str(n)] for an integer. *)
Fixpoint digits (fuel : nat) (n : Z) (acc : str) : str :=
  match fuel with
  | O => acc
  | S fuel' =>
      let acc' := Z.to_N (48 + n mod 10) :: acc in
      if n <? 10 then acc' else digits fuel' (n / 10) acc'
  end.

Definition str_of_Z (n : Z) : str :=
  if n <? 0 then 45%N :: digits (S (Z.to_nat (- n))) (- n) []
  else digits (S (Z.to_nat n)) n [].

(** [slice l a b] is [l[a:b]]. *)
Definition slice {A} (l : list A) (a b : Z) : list A :=
  let len := Z.of_nat (length l) in
  take (Z.to_nat (adjust len b - adjust len a)) (drop (Z.to_nat (adjust len a)) l).

Section Links.

(** [urllib.parse.quote] *)
Variable quote : str -> str.

Definition encode_filename (filename : str) : str := quote filename.

(** The line of one file (lines 94-96, 126-128 and 152-154). *)
Definition link_line (f : file) : str :=
  let encoded_filename := encode_filename (path f) in
  let encoded_link := replace_any (path f) encoded_filename (link f) in
  lit "- [" ++ path f ++ lit "](" ++ encoded_link ++ lit ")" ++ [NL].

(** The loop that adds lines until one does not fit (lines 93-99, 125-131
    and 151-157): [limit] is [max_response_length], or 2000 in
    [get_page_content]. *)
Fixpoint add_link_lines (limit : Z) (links_message : str) (files : list file)
  : str :=
  match files with
  | [] => links_message
  | f :: rest =>
      let new_line := link_line f in
      if Z.of_nat (length links_message) + Z.of_nat (length new_line) >? limit
      then links_message
      else add_link_lines limit (links_message ++ new_line) rest
  end.

(** [PaginatedLinks] (lines 137-176): the fields the code keeps, and the
    [disabled] flags of the two buttons. *)
Record PaginatedLinks := {
  links : list file;
  title : str;
  page_size : Z;
  current_page : Z;
  previous_disabled : bool;
  next_disabled : bool
}.

Definition page_links (v : PaginatedLinks) : list file :=
  let start := current_page v * page_size v in
  let stop := start + page_size v in
  slice (links v) start stop.

Definition page_header (v : PaginatedLinks) : str :=
  lit "**" ++ title v ++ lit " (Page " ++ str_of_Z (current_page v + 1)
  ++ lit "):**" ++ [NL].

Definition get_page_content (v : PaginatedLinks) : str :=
  add_link_lines 2000 (page_header v) (page_links v).

Definition update_buttons (v : PaginatedLinks) : PaginatedLinks :=
  {| links := links v; title := title v; page_size := page_size v;
     current_page := current_page v;
     previous_disabled := current_page v =? 0;
     next_disabled :=
       (current_page v + 1) * page_size v >=? Z.of_nat (length (links v)) |}.

Definition set_page (v : PaginatedLinks) (page : Z) : PaginatedLinks :=
  {| links := links v; title := title v; page_size := page_size v;
     current_page := page;
     previous_disabled := previous_disabled v;
     next_disabled := next_disabled v |}.

(** [__init__] *)
Definition init (the_links : list file) (the_title : str) (the_page_size : Z)
  : PaginatedLinks :=
  update_buttons
    {| links := the_links; title := the_title; page_size := the_page_size;
       current_page := 0; previous_disabled := false; next_disabled := false |}.

(** The two button handlers: the view afterwards and, when the page
    changed, the content handed to [edit_message]. *)
Definition previous_button (v : PaginatedLinks) : PaginatedLinks * option str :=
  if current_page v >? 0 then
    let v' := update_buttons (set_page v (current_page v - 1)) in
    (v', Some (get_page_content v'))
  else (v, None).

Definition next_button (v : PaginatedLinks) : PaginatedLinks * option str :=
  if (current_page v + 1) * page_size v <? Z.of_nat (length (links v)) then
    let v' := update_buttons (set_page v (current_page v + 1)) in
    (v', Some (get_page_content v'))
  else (v, None).

Inductive click := Previous | Next.

Definition press (v : PaginatedLinks) (c : click) : PaginatedLinks :=
  match c with
  | Previous => (previous_button v).1
  | Next => (next_button v).1
  end.

(** The view after a sequence of clicks. *)
Definition after_clicks (v : PaginatedLinks) (cs : list click) : PaginatedLinks :=
  fold_left press cs v.

End Links.

(** A view whose flags say where it stands, on a page that exists. *)
Definition consistent (v : PaginatedLinks) : Prop :=
  0 <= current_page v
  /\ (current_page v = 0
      \/ current_page v * page_size v < Z.of_nat (length (links v)))
  /\ previous_disabled v = (current_page v =? 0)
  /\ next_disabled v
     = ((current_page v + 1) * page_size v >=? Z.of_nat (length (links v))).

(** Twelve files, and a [quote] that changes nothing. *)
Definition sample_file (n : nat) : file :=
  {| path := lit "file" ++ str_of_Z (Z.of_nat n);
     link := lit "https://example.org/file" ++ str_of_Z (Z.of_nat n) |}.

Definition sample_files : list file := sample_file <$> seq 0 12.

Definition plain_quote (s : str) : str := s.

End Premiumize.

(** The feeds handed to the parser, in the order of the calls. *)
Fixpoint parsed_urls (t : trace) : list str :=
  match t with
  | [] => []
  | EvParse url :: t' => url :: parsed_urls t'
  | _ :: t' => parsed_urls t'
  end.

Definition not_parse (ev : event) : Prop :=
  match ev with EvParse _ => False | _ => True end.

(** * Properties *)

(** ** Strings *)

Section StringFacts.

Lemma length_lstrip (s : str) : (length (lstrip s) <= length s)%nat.
Proof.
  induction s as [|c s IH]; simpl; [lia|].
  destruct (is_space c); simpl; lia.
Qed.

Lemma length_rstrip (s : str) : (length (rstrip s) <= length s)%nat.
Proof.
  unfold rstrip. rewrite length_reverse.
  etransitivity; [apply length_lstrip|]. by rewrite length_reverse.
Qed.

Lemma length_strip (s : str) : (length (strip s) <= length s)%nat.
Proof.
  unfold strip. etransitivity; [apply length_rstrip | apply length_lstrip].
Qed.

Lemma lstrip_split (s : str) :
  exists lw, s = lw ++ lstrip s /\ all_space lw.
Proof.
  induction s as [|c s (lw & Heq & Hlw)]; simpl.
  - exists []. split; [done | constructor].
  - destruct (is_space c) eqn:Hc.
    + exists (c :: lw). split; [by rewrite Heq at 1 | by constructor].
    + exists []. split; [done | constructor].
Qed.

Lemma all_space_reverse (s : str) : all_space s -> all_space (reverse s).
Proof.
  unfold all_space. rewrite !Forall_forall. intros H c Hc.
  apply H. by apply elem_of_reverse.
Qed.

Lemma rstrip_split (s : str) :
  exists tw, s = rstrip s ++ tw /\ all_space tw.
Proof.
  destruct (lstrip_split (reverse s)) as (lw & Heq & Hlw).
  exists (reverse lw). split; [|by apply all_space_reverse].
  unfold rstrip. rewrite <- reverse_app, <- Heq. by rewrite reverse_involutive.
Qed.

(** [strip] removes white space at both ends and nothing else. *)
Lemma strip_split (s : str) :
  exists lw tw, s = lw ++ strip s ++ tw /\ all_space lw /\ all_space tw.
Proof.
  destruct (lstrip_split s) as (lw & Heq & Hlw).
  destruct (rstrip_split (lstrip s)) as (tw & Heq' & Htw).
  exists lw, tw. unfold strip. by rewrite <- Heq', <- Heq.
Qed.

Lemma length_strip_space (c : N) (s : str) :
  is_space c = true -> (length (strip (c :: s)) <= length s)%nat.
Proof.
  intros Hc. unfold strip. simpl. rewrite Hc.
  etransitivity; [apply length_rstrip | apply length_lstrip].
Qed.

Lemma last_index_Some (c : N) (s : str) (i : nat) :
  last_index c s = Some i -> s !! i = Some c.
Proof.
  revert i. induction s as [|x s IH]; intros i; simpl; [done|].
  destruct (last_index c s) as [j|] eqn:Hj.
  - intros [= <-]. simpl. by apply IH.
  - destruct (N.eqb_spec x c) as [->|]; [|done]. by intros [= <-].
Qed.

Lemma last_index_lt (c : N) (s : str) (i : nat) :
  last_index c s = Some i -> (i < length s)%nat.
Proof. intros H. eapply lookup_lt_Some, last_index_Some, H. Qed.

End StringFacts.

(** ** [split_message] *)

Section SplitMessage.

Variable chunk_size : Z.
Hypothesis chunk_size_pos : 1 <= chunk_size.

Lemma rfind_prefix (c : N) (s : str) :
  chunk_size < Z.of_nat (length s) ->
  rfind c s 0 chunk_size =
    match last_index c (take (Z.to_nat chunk_size) s) with
    | Some i => Z.of_nat i
    | None => -1
    end.
Proof.
  intros Hlen. unfold rfind, adjust.
  replace (0 <? 0) with false by done.
  destruct (Z.ltb_spec chunk_size 0) as [|_]; [lia|].
  rewrite Z.min_l, Z.min_l by lia. simpl Z.to_nat. rewrite drop_0.
  rewrite Z.sub_0_r. by destruct (last_index _ _).
Qed.

Lemma rfind_found (c : N) (s : str) :
  chunk_size < Z.of_nat (length s) ->
  rfind c s 0 chunk_size ≠ -1 ->
  0 <= rfind c s 0 chunk_size < chunk_size
  /\ s !! Z.to_nat (rfind c s 0 chunk_size) = Some c.
Proof.
  intros Hlen. rewrite rfind_prefix by done.
  destruct (last_index c _) as [i|] eqn:Hi; [intros _|done].
  pose proof (last_index_lt _ _ _ Hi) as Hlt.
  rewrite length_take in Hlt.
  apply last_index_Some in Hi. rewrite Nat2Z.id.
  apply lookup_take_Some in Hi as [Hi _]. split; [lia | done].
Qed.

(** Where the loop body cuts: never beyond [chunk_size], and at position
    zero only in front of a line feed or a blank. *)
Lemma split_point_spec (s : str) :
  chunk_size < Z.of_nat (length s) ->
  0 <= split_point s chunk_size <= chunk_size
  /\ (split_point s chunk_size = 0 ->
      exists c s', s = c :: s' /\ is_space c = true).
Proof.
  intros Hlen. unfold split_point.
  destruct (Z.eqb_spec (rfind NL s 0 chunk_size) (-1)) as [Hnl|Hnl].
  - destruct (Z.eqb_spec (rfind SP s 0 chunk_size) (-1)) as [Hsp|Hsp].
    + split; [lia|]. intros ->. lia.
    + destruct (rfind_found SP s Hlen Hsp) as [Hr Hc].
      split; [lia|]. intros H0. rewrite H0 in Hc.
      destruct s as [|c s']; [done|]. simpl in Hc. injection Hc as ->.
      by exists SP, s'.
  - apply Z.eqb_neq in Hnl as Hnl'. rewrite Hnl'.
    destruct (rfind_found NL s Hlen Hnl) as [Hr Hc].
    split; [lia|]. intros H0. rewrite H0 in Hc.
    destruct s as [|c s']; [done|]. simpl in Hc. injection Hc as ->.
    by exists NL, s'.
Qed.

Lemma slice_to_take (s : str) (k : Z) :
  0 <= k <= Z.of_nat (length s) -> slice_to s k = take (Z.to_nat k) s.
Proof.
  intros Hk. unfold slice_to, adjust.
  destruct (Z.ltb_spec k 0); [lia|]. by rewrite Z.min_l by lia.
Qed.

Lemma slice_from_drop (s : str) (k : Z) :
  0 <= k <= Z.of_nat (length s) -> slice_from s k = drop (Z.to_nat k) s.
Proof.
  intros Hk. unfold slice_from, adjust.
  destruct (Z.ltb_spec k 0); [lia|]. by rewrite Z.min_l by lia.
Qed.

(** The chunk cut off by one iteration is at most [chunk_size] long. *)
Lemma chunk_length (s : str) :
  chunk_size < Z.of_nat (length s) ->
  Z.of_nat (length (slice_to s (split_point s chunk_size))) <= chunk_size.
Proof.
  intros Hlen. destruct (split_point_spec s Hlen) as [Hsp _].
  rewrite slice_to_take by lia. rewrite length_take. lia.
Qed.

(** Every iteration leaves a strictly shorter remainder. *)
Lemma remainder_shorter (s : str) :
  chunk_size < Z.of_nat (length s) ->
  (length (strip (slice_from s (split_point s chunk_size))) < length s)%nat.
Proof.
  intros Hlen. destruct (split_point_spec s Hlen) as [Hsp Hzero].
  rewrite slice_from_drop by lia.
  destruct (Z.eq_dec (split_point s chunk_size) 0) as [H0|H0].
  - destruct (Hzero H0) as (c & s' & -> & Hc).
    rewrite H0. simpl Z.to_nat. rewrite drop_0.
    pose proof (length_strip_space c s' Hc). simpl. lia.
  - pose proof (length_strip (drop (Z.to_nat (split_point s chunk_size)) s)) as Hle.
    rewrite length_drop in Hle. lia.
Qed.

(** One iteration loses nothing but the white space around the remainder. *)
Lemma iteration_rebuilds (s : str) :
  chunk_size < Z.of_nat (length s) ->
  exists lw tw,
    s = slice_to s (split_point s chunk_size) ++ lw
        ++ strip (slice_from s (split_point s chunk_size)) ++ tw
    /\ all_space lw /\ all_space tw.
Proof.
  intros Hlen. destruct (split_point_spec s Hlen) as [Hsp _].
  rewrite slice_to_take, slice_from_drop by lia.
  destruct (strip_split (drop (Z.to_nat (split_point s chunk_size)) s))
    as (lw & tw & Heq & Hlw & Htw).
  exists lw, tw. split; [|done].
  rewrite <- Heq. by rewrite take_drop.
Qed.

(** The loop, for any list of parts gathered so far and any bound above the
    length of what is left. *)
Lemma split_loop_spec (fuel : nat) :
  forall (parts : list str) (s : str),
    (length s < fuel)%nat ->
    exists chunks,
      split_loop fuel parts s chunk_size = Some (parts ++ chunks)
      /\ chunks ≠ []
      /\ Forall (fun c => Z.of_nat (length c) <= chunk_size) chunks
      /\ rebuilds_trim s chunks
      /\ (Z.of_nat (length s) <= chunk_size -> chunks = [s]).
Proof.
  induction fuel as [|fuel IH]; intros parts s Hfuel; [lia|].
  simpl. destruct (Z.gtb_spec (Z.of_nat (length s)) chunk_size) as [Hgt|Hle].
  - pose proof (remainder_shorter s Hgt) as Hshort.
    destruct (IH (parts ++ [slice_to s (split_point s chunk_size)])
                 (strip (slice_from s (split_point s chunk_size))))
      as (chunks & Hrun & _ & Hall & Hreb & _); [lia|].
    exists (slice_to s (split_point s chunk_size) :: chunks).
    split; [by rewrite Hrun, <- app_assoc|].
    split; [done|].
    split; [constructor; [by apply chunk_length | done]|].
    split; [|lia].
    destruct (iteration_rebuilds s Hgt) as (lw & tw & Heq & Hlw & Htw).
    by eapply rebuilds_trim_cut.
  - exists [s]. split; [done|]. split; [done|].
    split; [by constructor|]. split; [constructor | done].
Qed.

End SplitMessage.

(** Without the bound on the chunk size the loop need not end: with a chunk
    size of zero it cuts the empty chunk off a one-letter text for ever. *)
Lemma split_loop_chunk_size_zero (fuel : nat) :
  forall parts, split_loop fuel parts (lit "a") 0 = None.
Proof. induction fuel as [|fuel IH]; intros parts; [done | apply IH]. Qed.

Example split_message_hard_cut :
  split_message (lit "abcdefgh") 3 = Some [lit "abc"; lit "def"; lit "gh"].
Proof. reflexivity. Qed.

Example split_message_at_blank :
  split_message (lit "one two three four") 5
  = Some [lit "one"; lit "two"; lit "three"; lit "four"].
Proof. reflexivity. Qed.

Example split_message_line_feed_first :
  split_message (lit "ab cd" ++ [NL] ++ lit "ef gh") 7
  = Some [lit "ab cd"; lit "ef gh"].
Proof. reflexivity. Qed.

Example splitlines_crlf :
  splitlines (lit "a" ++ [13%N; 10%N] ++ lit "b" ++ [NL; NL] ++ lit "c" ++ [NL])
  = [lit "a"; lit "b"; []; lit "c"].
Proof. reflexivity. Qed.

Example telegram_text_bold :
  telegram_text (lit "**Feed** <a> & b")
  = lit "<b>Feed</b> &lt;a&gt; &amp; b".
Proof. reflexivity. Qed.

(** ** Effects *)

Section Effects.

Context {A B : Type}.

Lemma bind_run (m : M A) (f : A -> M B) (h : trace) (s : gmap str Z) :
  (m ≫= f) h s =
    match result (m h s) with
    | Return a =>
        Run (events (m h s) ++ events (f a (h ++ events (m h s)) (store_after (m h s))))
          (store_after (f a (h ++ events (m h s)) (store_after (m h s))))
          (result (f a (h ++ events (m h s)) (store_after (m h s))))
    | Raise e => Run (events (m h s)) (store_after (m h s)) (Raise e)
    | Hang => Run (events (m h s)) (store_after (m h s)) Hang
    end.
Proof. reflexivity. Qed.

Lemma try_except_run (m : M A) (k : str -> M A) (h : trace) (s : gmap str Z) :
  try_except m k h s =
    match result (m h s) with
    | Raise e =>
        Run (events (m h s) ++ events (k e (h ++ events (m h s)) (store_after (m h s))))
          (store_after (k e (h ++ events (m h s)) (store_after (m h s))))
          (result (k e (h ++ events (m h s)) (store_after (m h s))))
    | _ => m h s
    end.
Proof. reflexivity. Qed.

End Effects.

(** Unfolds the plumbing of a run down to the calls. *)
Ltac run_unfold :=
  unfold mbind, M_bind, bind, try_except, call, mret, M_ret, ret, raise,
    lift_option in *;
  cbn [events result store_after] in *.

Lemma processed_app (t1 t2 : trace) :
  processed (t1 ++ t2) = processed t1 ++ processed t2.
Proof.
  induction t1 as [|ev t1 IH]; [done|].
  destruct ev; simpl; by rewrite ?IH.
Qed.

Section Outside.

Context {A B : Type}.

Lemma outside_ret (a : A) : outside (mret a : M A).
Proof. by intros h s. Qed.

Lemma outside_raise (e : str) : outside (raise e : M A).
Proof. by intros h s. Qed.

Lemma outside_lift_option (o : option A) : outside (lift_option o).
Proof. by intros h s. Qed.

Lemma outside_call (ev : event) (answer : trace -> outcome A) :
  not_process ev -> outside (call ev answer).
Proof. intros Hev h s. by destruct ev. Qed.

Lemma outside_bind (m : M A) (f : A -> M B) :
  outside m -> (forall a, outside (f a)) -> outside (m ≫= f).
Proof.
  intros Hm Hf h s. rewrite bind_run.
  destruct (Hm h s) as [Hs Hp].
  destruct (result (m h s)) as [a| |]; simpl; [|done..].
  destruct (Hf a (h ++ events (m h s)) (store_after (m h s))) as [Hs' Hp'].
  rewrite processed_app, Hp, Hp', Hs'. done.
Qed.

Lemma outside_try_except (m : M A) (k : str -> M A) :
  outside m -> (forall e, outside (k e)) -> outside (try_except m k).
Proof.
  intros Hm Hk h s. rewrite try_except_run.
  destruct (Hm h s) as [Hs Hp].
  destruct (result (m h s)) as [a|e|]; simpl; [done| |done].
  destruct (Hk e (h ++ events (m h s)) (store_after (m h s))) as [Hs' Hp'].
  rewrite processed_app, Hp, Hp', Hs'. done.
Qed.

End Outside.

Lemma outside_for_each {A} (l : list A) (body : A -> M unit) :
  (forall x, outside (body x)) -> outside (for_each l body).
Proof.
  intros Hbody. induction l as [|x l IH]; simpl.
  - apply outside_ret.
  - apply outside_bind; [apply Hbody | done].
Qed.

Create HintDb outside_db.
#[local] Hint Resolve outside_ret outside_raise outside_lift_option
  outside_bind outside_try_except outside_for_each : outside_db.
#[local] Hint Extern 1 (outside (call _ _)) =>
  apply outside_call; exact I : outside_db.
#[local] Hint Extern 2 (outside (match ?x with _ => _ end)) =>
  destruct x : outside_db.
#[local] Hint Extern 2 (outside (if ?x then _ else _)) =>
  destruct x : outside_db.

Ltac outside_tac := intros; eauto 20 with outside_db.

Section ProcessEntry.

Variable w : world.
Variable max_response_length : Z.

Lemma outside_fetch_web_summary (url : str) : outside (fetch_web_summary w url).
Proof. unfold fetch_web_summary. outside_tac. Qed.

Lemma outside_summary_text_of (link : str) : outside (summary_text_of w link).
Proof.
  unfold summary_text_of.
  apply outside_bind; [apply outside_fetch_web_summary|].
  intros [[|c text]|]; outside_tac.
Qed.

Lemma outside_announcement_of (feed_title : str) (e : entry) :
  outside (announcement_of w feed_title e).
Proof.
  unfold announcement_of.
  apply outside_bind; [apply outside_summary_text_of | outside_tac].
Qed.

Lemma outside_send_to_channel (chunks : list str) :
  outside (send_to_channel w chunks).
Proof. unfold send_to_channel. outside_tac. Qed.

Lemma outside_send_to_telegram (announcement : str) :
  outside (send_to_telegram w announcement).
Proof. unfold send_to_telegram. outside_tac. Qed.

(** A call of [process_entry] is seen once in the trace, for its own entry,
    and leaves the hash as it was. *)
Lemma process_entry_run (feed_title : str) (e : entry) h s :
  store_after (process_entry w max_response_length feed_title e h s) = s
  /\ processed (events (process_entry w max_response_length feed_title e h s)) = [e].
Proof.
  assert (outside (announcement ← announcement_of w feed_title e;
                   chunks ← lift_option (split_message announcement max_response_length);
                   send_to_channel w chunks;;
                   send_to_telegram w announcement)) as Hrest.
  { apply outside_bind; [apply outside_announcement_of|]. intros a.
    apply outside_bind; [outside_tac|]. intros chunks.
    apply outside_bind; [apply outside_send_to_channel|]. intros _.
    apply outside_send_to_telegram. }
  unfold process_entry. rewrite bind_run. simpl.
  destruct (Hrest (h ++ [EvProcess feed_title e]) s) as [Hs Hp].
  by rewrite Hs, Hp.
Qed.

End ProcessEntry.

(** ** Sorting *)

Section Sorting.

Context {A : Type} (key : A -> Z).

Lemma insert_by_Forall (P : A -> Prop) (x : A) (l : list A) :
  P x -> Forall P l -> Forall P (insert_by key x l).
Proof.
  intros Hx Hl. induction Hl as [|y l Hy Hl IH]; simpl.
  - by constructor.
  - destruct (key x <=? key y); by repeat constructor.
Qed.

Lemma insert_by_sorted (x : A) (l : list A) :
  StronglySorted (key_le key) l -> StronglySorted (key_le key) (insert_by key x l).
Proof.
  induction 1 as [|y l Hl IH Hy]; simpl.
  - by repeat constructor.
  - destruct (Z.leb_spec (key x) (key y)) as [Hxy|Hxy].
    + constructor; [by constructor|].
      constructor; [done|].
      eapply Forall_impl; [exact Hy|]. unfold key_le. intros z Hz. lia.
    + constructor; [done|].
      apply insert_by_Forall; [|done]. unfold key_le. lia.
Qed.

Lemma sorted_sorted (l : list A) : StronglySorted (key_le key) (sorted l key).
Proof.
  induction l as [|x l IH]; simpl; [constructor|].
  by apply insert_by_sorted.
Qed.

Lemma insert_by_perm (x : A) (l : list A) : insert_by key x l ≡ₚ x :: l.
Proof.
  induction l as [|y l IH]; simpl; [done|].
  destruct (key x <=? key y); [done|].
  rewrite IH. apply Permutation_swap.
Qed.

Lemma sorted_perm (l : list A) : sorted l key ≡ₚ l.
Proof.
  induction l as [|x l IH]; simpl; [done|].
  by rewrite insert_by_perm, IH.
Qed.

(** Stability: entries with the same key keep the order of the input, so
    the result is the one any stable sort gives. *)
Lemma insert_by_stable (k : Z) (x : A) (l : list A) :
  List.filter (fun a => key a =? k) (insert_by key x l)
  = List.filter (fun a => key a =? k) (x :: l).
Proof.
  induction l as [|y l IH]; [done|].
  simpl insert_by. destruct (Z.leb_spec (key x) (key y)) as [Hxy|Hxy]; [done|].
  simpl in *. rewrite IH.
  destruct (Z.eqb_spec (key x) k) as [Hx|Hx]; [|done].
  destruct (Z.eqb_spec (key y) k) as [Hy|Hy]; [lia | done].
Qed.

Lemma sorted_stable (k : Z) (l : list A) :
  List.filter (fun a => key a =? k) (sorted l key)
  = List.filter (fun a => key a =? k) l.
Proof.
  induction l as [|x l IH]; [done|].
  simpl sorted. rewrite insert_by_stable. simpl. by rewrite IH.
Qed.

Lemma filter_sorted (f : A -> bool) (l : list A) :
  StronglySorted (key_le key) l -> StronglySorted (key_le key) (List.filter f l).
Proof.
  induction 1 as [|y l Hl IH Hy]; simpl; [constructor|].
  destruct (f y); [|done].
  constructor; [done|].
  rewrite Forall_forall in *. intros z Hz.
  apply Hy. apply list_elem_of_In in Hz. apply filter_In in Hz as [Hz _].
  by apply list_elem_of_In.
Qed.

Lemma prefix_sorted (l1 l2 : list A) :
  l1 `prefix_of` l2 -> StronglySorted (key_le key) l2 -> StronglySorted (key_le key) l1.
Proof.
  intros [k ->] H. revert H. induction l1 as [|x l1 IH]; simpl; [constructor|].
  intros H. apply StronglySorted_inv in H as [H1 H2].
  constructor; [by apply IH|].
  by apply Forall_app in H2 as [H2 _].
Qed.

Lemma sorted_lookup (l : list A) (i j : nat) (a b : A) :
  StronglySorted (key_le key) l -> (i < j)%nat ->
  l !! i = Some a -> l !! j = Some b -> key a <= key b.
Proof.
  intros H. revert i j. induction H as [|x l Hl IH Hx]; intros i j Hij Hi Hj; [done|].
  destruct j as [|j]; [lia|]. destruct i as [|i]; simpl in *.
  - injection Hi as ->. rewrite Forall_forall in Hx.
    apply Hx. by eapply list_elem_of_lookup_2.
  - apply (IH i j); [lia | done..].
Qed.

End Sorting.

(** ** One feed of a poll cycle *)

Section PollFeed.

Variable w : world.
Variable max_response_length : Z.

Lemma is_new_stamp (last_ts : Z) (e : entry) :
  is_new last_ts e = true ->
  exists ts, published_parsed e = Some ts /\ last_ts < ts.
Proof.
  unfold is_new. destruct (published_parsed e) as [ts|]; [|done].
  intros H. exists ts. split; [done | lia].
Qed.

(** The loop over the sorted entries: the calls of [process_entry] are the
    new entries, in the order of the list, up to the point where a call did
    not come back; the hash is not written; the time stamp it yields is
    the start value or lies above the watermark. *)
Lemma entries_loop_run (feed_title : str) (last_ts : Z) (es : list entry) :
  forall (new_last_ts : Z) h s,
    let r := entries_loop w max_response_length feed_title last_ts es new_last_ts h s in
    store_after r = s
    /\ processed (events r) `prefix_of` List.filter (is_new last_ts) es
    /\ forall ts, result r = Return ts ->
         processed (events r) = List.filter (is_new last_ts) es
         /\ ts = foldr Z.max new_last_ts (published_stamps (List.filter (is_new last_ts) es)).
Proof.
  induction es as [|e es IH]; intros nl h s.
  - split; [done|]. split; [done|]. by intros ts [= <-].
  - cbn [entries_loop List.filter].
    assert (is_new last_ts e =
            match published_parsed e with
            | Some t => t >? last_ts
            | None => false
            end) as Hnew by done.
    destruct (published_parsed e) as [entry_ts|] eqn:He; [|rewrite Hnew; apply IH].
    destruct (Z.gtb_spec entry_ts last_ts) as [Hgt|Hle]; rewrite Hnew;
      [|apply IH].
    rewrite bind_run.
    destruct (process_entry_run w max_response_length feed_title e h s) as [Hs Hp].
    destruct (process_entry w max_response_length feed_title e h s)
      as [ev st res].
    simpl in Hs, Hp. subst st. destruct res as [[]|err|]; simpl.
    + rewrite processed_app, Hp. simpl app.
      match goal with |- context [entries_loop _ _ _ _ _ ?n ?h' _] =>
        destruct (IH n h' s) as (Hs' & Hpre & Hret) end.
      split; [done|]. split; [by apply prefix_cons|].
      intros ts Hts. destruct (Hret ts Hts) as [Hp' Hts'].
      split; [by rewrite Hp'|].
      rewrite Hts'. unfold published_stamps at 2. simpl. rewrite He. simpl.
      fold (published_stamps (List.filter (is_new last_ts) es)).
      generalize (published_stamps (List.filter (is_new last_ts) es)).
      intros l. destruct (Z.gtb_spec entry_ts nl).
      * induction l as [|x l IHl]; simpl; lia.
      * induction l as [|x l IHl]; simpl; lia.
    + rewrite Hp. split; [done|]. split; [|done].
      apply prefix_cons, prefix_nil.
    + rewrite Hp. split; [done|]. split; [|done].
      apply prefix_cons, prefix_nil.
Qed.

End PollFeed.

Section PollFeedBlock.

Variable w : world.
Variable max_response_length : Z.

(** The [try] block of one feed: what it may do to the hash, which calls of
    [process_entry] it makes, and how it ends. *)
Lemma poll_feed_body_run (feed_url : str) (last_ts : Z) h s :
  let r := poll_feed_body w max_response_length feed_url last_ts h s in
  (store_after r = s
   \/ exists v, last_ts < v /\ store_after r = <[feed_url := v]> s)
  /\ processed (events r) `prefix_of` selected last_ts (feed_entries w h feed_url)
  /\ exists t, events r = EvParse feed_url :: t.
Proof.
  unfold poll_feed_body, feed_entries, selected. rewrite bind_run.
  cbn [call events result store_after].
  destruct (feedparser_parse w h feed_url) as [pf|err|];
    cbn [events result store_after processed];
    [|split; [by left|]; split; [apply prefix_nil | by eexists]..].
  destruct (bozo pf).
  { cbn. split; [by left|]. split; [apply prefix_nil | by eexists]. }
  rewrite bind_run.
  match goal with |- context [entries_loop _ _ ?ft ?l ?es ?n ?h' ?s'] =>
    destruct (entries_loop_run w max_response_length ft l es n h' s')
      as (Hs & Hpre & Hret);
    destruct (entries_loop w max_response_length ft l es n h' s')
      as [ev st res] end.
  cbn [events result store_after] in *. subst st.
  destruct res as [ts|err|]; cbn [events result store_after app processed].
  - destruct (Z.gtb_spec ts last_ts) as [Hgt|Hle].
    + unfold hset. destruct (redis_up w _); cbn [events result store_after].
      * split; [right; by exists ts|].
        rewrite processed_app, app_nil_r. split; [done | by eexists].
      * split; [by left|].
        rewrite processed_app, app_nil_r. split; [done | by eexists].
    + cbn. rewrite app_nil_r. split; [by left|]. split; [done | by eexists].
  - split; [by left|]. split; [done | by eexists].
  - split; [by left|]. split; [done | by eexists].
Qed.

Lemma poll_feed_run (feed : str * Z) h s :
  let r := poll_feed w max_response_length feed h s in
  (store_after r = s
   \/ exists v, feed.2 < v /\ store_after r = <[feed.1 := v]> s)
  /\ processed (events r) `prefix_of` selected feed.2 (feed_entries w h feed.1)
  /\ (exists t, events r = EvParse feed.1 :: t)
  /\ forall e, result r ≠ Raise e.
Proof.
  destruct feed as [feed_url last_ts]. unfold poll_feed. cbn [fst snd].
  rewrite try_except_run.
  destruct (poll_feed_body_run feed_url last_ts h s) as (Hs & Hp & Ht).
  destruct (poll_feed_body w max_response_length feed_url last_ts h s)
    as [ev st res].
  cbn [events result store_after] in *.
  destruct res as [[]|err|]; cbn [events result store_after mret M_ret ret];
    rewrite ?app_nil_r; done.
Qed.

End PollFeedBlock.

(** ** The store across operations *)

Lemma watermark_le_refl (o : option Z) : watermark_le o o.
Proof. destruct o; simpl; [lia | done]. Qed.

Lemma watermark_le_trans (o1 o2 o3 : option Z) :
  watermark_le o1 o2 -> watermark_le o2 o3 -> watermark_le o1 o3.
Proof.
  unfold watermark_le. destruct o3 as [v3|]; [|done].
  destruct o2 as [v2|]; [|done]. destruct o1 as [v1|]; [lia | done].
Qed.

Section StoreOps.

Variable w : world.
Variable max_response_length : Z.

(** The loop over the snapshot: every feed of the snapshot still has the
    value of the snapshot when its turn comes, so a write only moves it up. *)
Lemma for_each_poll_feed_store (feeds : list (str * Z)) :
  forall h s,
    NoDup feeds.*1 ->
    (forall u v, (u, v) ∈ feeds -> s !! u = Some v) ->
    forall url,
      watermark_le (s !! url)
        (store_after (for_each feeds (poll_feed w max_response_length) h s) !! url).
Proof.
  induction feeds as [|[u0 v0] feeds IH]; intros h s Hnd Hsnap url.
  - apply watermark_le_refl.
  - cbn [for_each]. rewrite bind_run.
    destruct (poll_feed_run w max_response_length (u0, v0) h s)
      as (Hs & _ & _ & _). cbn [fst snd] in Hs.
    destruct (poll_feed w max_response_length (u0, v0) h s) as [ev st res].
    cbn [events result store_after] in *.
    assert (watermark_le (s !! url) (st !! url)) as Hstep.
    { destruct Hs as [->|(v & Hv & ->)]; [apply watermark_le_refl|].
      destruct (decide (u0 = url)) as [<-|Hne].
      - rewrite lookup_insert_eq, (Hsnap u0 v0) by left. simpl. lia.
      - rewrite lookup_insert_ne by done. apply watermark_le_refl. }
    destruct res as [[]|err|]; cbn [events result store_after]; [|done..].
    eapply watermark_le_trans; [exact Hstep|].
    apply IH.
    + by apply NoDup_cons in Hnd as [_ Hnd].
    + intros u v Huv.
      assert (u ≠ u0) as Hne.
      { intros ->. apply NoDup_cons in Hnd as [Hnotin _]. apply Hnotin.
        apply list_elem_of_fmap. by exists (u0, v). }
      destruct Hs as [->|(v1 & _ & ->)].
      * apply Hsnap. by right.
      * rewrite lookup_insert_ne by done. apply Hsnap. by right.
Qed.

Lemma poll_cycle_store (url : str) h s :
  watermark_le (s !! url)
    (store_after (poll_cycle w max_response_length h s) !! url).
Proof.
  unfold poll_cycle. rewrite bind_run.
  assert (exists ev feeds,
    get_feeds w h s = Run ev s (Return feeds) /\ (feeds = s \/ feeds = ∅))
    as (ev & feeds & -> & Hfeeds).
  { unfold get_feeds. rewrite try_except_run. unfold hgetall.
    destruct (redis_up w h); cbn; eauto. }
  cbn [events result store_after]. rewrite bind_run.
  pose proof (for_each_poll_feed_store (map_to_list feeds) (h ++ ev) s) as Hloop.
  destruct (for_each (map_to_list feeds) (poll_feed w max_response_length) (h ++ ev) s)
    as [ev' st res].
  cbn [events result store_after] in *.
  assert (watermark_le (s !! url) (st !! url)) as Hst.
  { apply Hloop.
    - apply NoDup_fst_map_to_list.
    - intros u v Huv. apply elem_of_map_to_list in Huv.
      destruct Hfeeds as [->| ->]; [done | by rewrite lookup_empty in Huv]. }
  by destruct res as [[]|err|].
Qed.

Lemma add_feed_store (feed_url url : str) h s :
  feed_url ≠ url ->
  store_after (add_feed w feed_url h s) !! url = s !! url.
Proof.
  intros Hne. unfold add_feed. run_unfold.
  destruct (feedparser_parse w h feed_url) as [pf|err|]; [|done..].
  destruct (bozo pf); [done|].
  destruct (entries pf) as [|e es]; run_unfold; unfold hset;
    match goal with |- context [redis_up w ?x] => destruct (redis_up w x) end;
    cbn [events result store_after]; by rewrite ?lookup_insert_ne.
Qed.

Lemma remove_feed_store (feed_url url : str) h s :
  watermark_le (s !! url) (store_after (remove_feed w feed_url h s) !! url).
Proof.
  unfold remove_feed. rewrite try_except_run, bind_run. unfold hdel.
  destruct (redis_up w h); cbn; [|apply watermark_le_refl].
  assert (watermark_le (s !! url) (delete feed_url s !! url)) as Hdel.
  { destruct (decide (feed_url = url)) as [->|Hne].
    - by rewrite lookup_delete_eq.
    - rewrite lookup_delete_ne by done. apply watermark_le_refl. }
  by destruct (s !! feed_url); cbn.
Qed.

Lemma run_op_store (op : store_op) (url : str) h s :
  op ≠ OpAddFeed url ->
  watermark_le (s !! url)
    (store_after (run_op w max_response_length op h s) !! url).
Proof.
  intros Hop. destruct op as [u|u|]; cbn [run_op].
  - assert (u ≠ url) as Hne by congruence.
    rewrite bind_run. pose proof (add_feed_store u url h s Hne) as Hs.
    destruct (add_feed w u h s) as [ev st res]. cbn in *.
    destruct res; cbn; rewrite Hs; apply watermark_le_refl.
  - rewrite bind_run. pose proof (remove_feed_store u url h s) as Hs.
    destruct (remove_feed w u h s) as [ev st res]. cbn in *.
    by destruct res.
  - apply poll_cycle_store.
Qed.

Lemma run_ops_store (ops : list store_op) (url : str) :
  OpAddFeed url ∉ ops ->
  forall h s,
    watermark_le (s !! url)
      (store_after (run_ops w max_response_length ops h s) !! url).
Proof.
  induction ops as [|op ops IH]; intros Hops h s.
  - apply watermark_le_refl.
  - cbn [run_ops]. rewrite bind_run, try_except_run.
    assert (op ≠ OpAddFeed url) as Hop.
    { intros ->. apply Hops. by left. }
    assert (OpAddFeed url ∉ ops) as Hops'.
    { intros Hin. apply Hops. by right. }
    pose proof (run_op_store op url h s Hop) as Hstep.
    destruct (run_op w max_response_length op h s) as [ev st res].
    cbn [events result store_after] in *.
    destruct res as [[]|err|]; cbn [events result store_after mret M_ret ret];
      [|rewrite ?app_nil_r|done];
      (eapply watermark_le_trans; [exact Hstep | apply IH; done]).
Qed.

End StoreOps.

(** ** Exceptions *)

Section NoRaise.

Context {A B : Type}.

Lemma no_raise_ret (a : A) : no_raise (mret a : M A).
Proof. by intros h s e. Qed.

Lemma no_raise_lift_option (o : option A) : no_raise (lift_option o).
Proof. intros h s e. by destruct o. Qed.

Lemma no_raise_bind (m : M A) (f : A -> M B) :
  no_raise m -> (forall a, no_raise (f a)) -> no_raise (m ≫= f).
Proof.
  intros Hm Hf h s e. rewrite bind_run.
  destruct (result (m h s)) as [a|e'|] eqn:Hr; cbn [result].
  - apply Hf.
  - by destruct (Hm h s e').
  - done.
Qed.

(** A handler that does not raise makes the whole [try] not raise. *)
Lemma no_raise_try_except (m : M A) (k : str -> M A) :
  (forall e, no_raise (k e)) -> no_raise (try_except m k).
Proof.
  intros Hk h s e. rewrite try_except_run.
  destruct (result (m h s)) as [a|e'|] eqn:Hr; cbn [result].
  - by rewrite Hr.
  - apply Hk.
  - by rewrite Hr.
Qed.

End NoRaise.

Section Collaborators.

Variable w : world.

Lemma fetch_web_summary_events (url : str) h s :
  events (fetch_web_summary w url h s) = [EvGet url].
Proof.
  unfold fetch_web_summary. run_unfold.
  destruct (requests_get w h url) as [resp|e|]; cbn [events result]; [|done..].
  by destruct (negb _).
Qed.

Lemma no_raise_fetch_web_summary (url : str) :
  no_raise (fetch_web_summary w url).
Proof.
  unfold fetch_web_summary. apply no_raise_try_except.
  intros e. apply no_raise_ret.
Qed.

Lemma no_raise_summary_text_of (link : str) : no_raise (summary_text_of w link).
Proof.
  unfold summary_text_of.
  apply no_raise_bind; [apply no_raise_fetch_web_summary|].
  intros [[|c text]|]; try apply no_raise_ret.
  apply no_raise_try_except. intros e. apply no_raise_ret.
Qed.

Lemma no_raise_announcement_of (feed_title : str) (e : entry) :
  no_raise (announcement_of w feed_title e).
Proof.
  unfold announcement_of.
  apply no_raise_bind; [apply no_raise_summary_text_of|].
  intros summary. apply no_raise_ret.
Qed.

(** Whatever happens while the chunks go to the channel stays inside. *)
Lemma no_raise_send_to_channel (chunks : list str) :
  no_raise (send_to_channel w chunks).
Proof.
  unfold send_to_channel. apply no_raise_try_except.
  intros e. apply no_raise_ret.
Qed.

End Collaborators.

(** ** Delivery *)

Section Delivery.

Variable w : world.
Variable max_response_length : Z.

Lemma split_loop_nonempty (fuel : nat) :
  forall (parts : list str) (s : str) (n : Z) (chunks : list str),
    split_loop fuel parts s n = Some chunks -> chunks ≠ [].
Proof.
  induction fuel as [|fuel IH]; intros parts s n chunks; simpl;
    destruct (Z.of_nat (length s) >? n); try done.
  - intros [= <-]. by destruct parts.
  - apply IH.
  - intros [= <-]. by destruct parts.
Qed.

(** With the channel found, the first chunk is sent to it. *)
Lemma send_to_channel_attempt (chunk : str) (chunks : list str) h s :
  channel_configured w ->
  EvSend chunk ∈ events (send_to_channel w (chunk :: chunks) h s).
Proof.
  intros Hch. unfold send_to_channel. cbn [for_each]. run_unfold.
  rewrite Hch. cbn [events result store_after].
  destruct (channel_send w _ chunk) as [[]|e|]; cbn [events result store_after];
    [|set_solver..].
  match goal with |- context [result ?r] => destruct (result r) end;
    cbn [events result store_after]; set_solver.
Qed.

(** With Telegram configured, the message is posted, and an exception of
    the post stays inside. *)
Lemma send_to_telegram_attempt (announcement : str) h s :
  telegram_configured w ->
  (exists url, EvPost url (telegram_text announcement)
               ∈ events (send_to_telegram w announcement h s))
  /\ (result (send_to_telegram w announcement h s) = Return tt
      \/ result (send_to_telegram w announcement h s) = Hang).
Proof.
  intros Htg. unfold send_to_telegram. run_unfold.
  destruct (Htg h) as [-> _]. cbn [events result store_after].
  destruct (Htg (h ++ [EvPluginEnabled (lit "telegram_notifier")]))
    as [_ (st & -> & ->)].
  cbn [events result store_after].
  destruct (requests_post w _ _ _) as [[]|e|]; cbn [events result store_after];
    (split; [eexists; do 2 apply list_elem_of_further; apply list_elem_of_here
            | auto]).
Qed.

(** An exception that leaves [send_to_telegram] was raised by one of the
    two questions about the plugin, not by the post. *)
Lemma send_to_telegram_raise (announcement : str) h s (e : str) :
  result (send_to_telegram w announcement h s) = Raise e ->
  get_plugin_enabled w h (lit "telegram_notifier") = Raise e
  \/ get_plugin_settings w (h ++ [EvPluginEnabled (lit "telegram_notifier")])
       (lit "Telegram") = Raise e.
Proof.
  unfold send_to_telegram. run_unfold.
  destruct (get_plugin_enabled w h _) as [[|]|e'|];
    cbn [events result store_after].
  - destruct (get_plugin_settings w _ _) as [st|e'|];
      cbn [events result store_after].
    + destruct (_ && _); cbn [events result store_after]; [|done].
      by destruct (requests_post w _ _ _) as [[]|e'|].
    + intros [= <-]. by right.
    + done.
  - done.
  - intros [= <-]. by left.
  - done.
Qed.

Lemma no_raise_poll_feed (feed : str * Z) :
  no_raise (poll_feed w max_response_length feed).
Proof.
  unfold poll_feed. apply no_raise_try_except. intros e. apply no_raise_ret.
Qed.

(** The loop over the snapshot reaches every feed unless a call hangs. *)
Lemma for_each_poll_feed_parses (feeds : list (str * Z)) :
  forall h s,
    result (for_each feeds (poll_feed w max_response_length) h s) ≠ Hang ->
    forall feed, feed ∈ feeds ->
      EvParse feed.1
      ∈ events (for_each feeds (poll_feed w max_response_length) h s).
Proof.
  induction feeds as [|f feeds IH]; intros h s Hres feed Hin.
  - by apply elem_of_nil in Hin.
  - cbn [for_each] in *. rewrite bind_run in *.
    destruct (poll_feed_run w max_response_length f h s)
      as (_ & _ & [t Ht] & Hnr).
    destruct (poll_feed w max_response_length f h s) as [ev st res].
    cbn [events result store_after] in *. subst ev.
    destruct res as [[]|e|]; cbn [events result store_after] in *;
      [|by destruct (Hnr e)|done].
    apply elem_of_cons in Hin as [->|Hin].
    + apply elem_of_app. left. by left.
    + apply elem_of_app. right. by apply IH.
Qed.

Lemma no_raise_for_each_poll_feed (feeds : list (str * Z)) :
  no_raise (for_each feeds (poll_feed w max_response_length)).
Proof.
  induction feeds as [|f feeds IH]; cbn [for_each].
  - apply no_raise_ret.
  - apply no_raise_bind; [apply no_raise_poll_feed | done].
Qed.

End Delivery.

(** ** Words *)

Lemma split_ws_aux_words (s : str) :
  forall cur,
    Forall (fun c => is_space c = false) cur ->
    Forall is_word (split_ws_aux cur s).
Proof.
  induction s as [|c s IH]; intros cur Hcur; simpl.
  - destruct cur as [|x cur]; [constructor|].
    apply Forall_cons. split; [by split | constructor].
  - destruct (is_space c) eqn:Hc.
    + destruct cur as [|x cur]; [by apply IH|].
      apply Forall_cons. split; [by split | by apply IH].
    + apply IH. apply Forall_app. split; [done|].
      apply Forall_cons. split; [done | constructor].
Qed.

Lemma split_ws_words (s : str) : Forall is_word (split_ws s).
Proof. by apply split_ws_aux_words. Qed.

Lemma split_ws_aux_word (word : str) :
  Forall (fun c => is_space c = false) word ->
  forall cur s, split_ws_aux cur (word ++ s) = split_ws_aux (cur ++ word) s.
Proof.
  induction 1 as [|c word Hc Hword IH]; intros cur s; simpl.
  - by rewrite app_nil_r.
  - rewrite Hc, IH. by rewrite <- app_assoc.
Qed.

Lemma join_cons (sep p q : str) (ps : list str) :
  join sep (p :: q :: ps) = p ++ sep ++ join sep (q :: ps).
Proof. reflexivity. Qed.

Lemma split_ws_aux_blank (cur s : str) :
  cur ≠ [] -> split_ws_aux cur ([SP] ++ s) = cur :: split_ws_aux [] s.
Proof. by destruct cur. Qed.

(** Joining words with blanks and splitting again gives the words back. *)
Lemma split_ws_join (words : list str) :
  Forall is_word words -> split_ws (join [SP] words) = words.
Proof.
  unfold split_ws. induction 1 as [|word words [Hne Hword] Hwords IH]; [done|].
  destruct words as [|word' words]; [cbn [join]|rewrite join_cons].
  - rewrite <- (app_nil_r word) at 1. rewrite split_ws_aux_word by done.
    simpl. by destruct word.
  - rewrite split_ws_aux_word, app_nil_l by done.
    rewrite split_ws_aux_blank by done. by rewrite IH.
Qed.

(** The extractor of the web search plugin caps its text at 3000 words. *)
Lemma web_search_article_text_capped (page : node) (text : str) :
  web_search_article_text page = Some text ->
  (length (split_ws text) <= web_search_word_cap)%nat.
Proof.
  unfold web_search_article_text.
  destruct (match find (lit "article") _ with Some c => Some c | None => _ end)
    as [container|]; [|done].
  destruct (Nat.ltb_spec web_search_word_cap
              (length (split_ws (clean_lines (get_text [NL] container)))))
    as [Hlong|Hshort]; intros [= <-]; [|done].
  rewrite split_ws_join.
  - rewrite length_take. lia.
  - apply Forall_take, split_ws_words.
Qed.

(** * The properties of the specification *)

(** ** Chunks *)

(** C7: for a chunk size of at least one, [split_message] returns chunks
    that are each at most that long, and a text no longer than the chunk
    size comes back as the single chunk it is. *)
Theorem split_message_chunks_bounded (text : str) (n : Z) :
  1 <= n ->
  exists chunks,
    split_message text n = Some chunks
    /\ Forall (fun chunk => Z.of_nat (length chunk) <= n) chunks
    /\ (Z.of_nat (length text) <= n -> chunks = [text]).
Proof.
  intros Hn.
  destruct (split_loop_spec n Hn (S (length text)) [] text)
    as (chunks & Hrun & _ & Hall & _ & Hone); [lia|].
  exists chunks. by repeat split.
Qed.

Lemma split_message_chunks_bounded_witness :
  1 <= 5 /\
  exists chunks,
    split_message (lit "one two three four") 5 = Some chunks
    /\ Forall (fun chunk => Z.of_nat (length chunk) <= 5) chunks
    /\ (Z.of_nat (length (lit "one two three four")) <= 5
        -> chunks = [lit "one two three four"]).
Proof.
  split; [lia|]. apply (split_message_chunks_bounded (lit "one two three four") 5).
  lia.
Defined.

(** C10: for a chunk size of at least one, every iteration of the loop of
    [split_message] leaves a strictly shorter remainder, so the loop ends
    within as many iterations as the text has characters, and the list it
    returns is not empty. *)
Theorem split_message_terminates (text : str) (n : Z) :
  1 <= n ->
  (forall s : str,
     n < Z.of_nat (length s) ->
     (length (strip (slice_from s (split_point s n))) < length s)%nat)
  /\ forall fuel : nat,
       (length text < fuel)%nat ->
       exists chunks,
         split_loop fuel [] text n = Some chunks /\ chunks ≠ [].
Proof.
  intros Hn. split.
  - intros s Hs. by apply remainder_shorter.
  - intros fuel Hfuel.
    destruct (split_loop_spec n Hn fuel [] text Hfuel)
      as (chunks & Hrun & Hne & _).
    by exists chunks.
Qed.

Lemma split_message_terminates_witness :
  1 <= 3 /\
  exists chunks,
    split_loop 9 [] (lit "abcdefgh") 3 = Some chunks /\ chunks ≠ [].
Proof.
  split; [lia|].
  apply (split_message_terminates (lit "abcdefgh") 3); [lia|].
  vm_compute. lia.
Defined.

(** The last chunk ends the text when only leading white space is put
    back. *)
Lemma rebuilds_lead_suffix (text : str) (chunks : list str) :
  rebuilds_lead text chunks ->
  forall c, last chunks = Some c -> c `suffix_of` text.
Proof.
  induction 1 as [text|text chunk lw rest chunks -> Hlw Hrest IH]; intros c Hc.
  - injection Hc as ->. done.
  - destruct chunks as [|c' chunks]; [inversion Hrest|].
    rewrite last_cons_cons in Hc.
    apply suffix_app_r, suffix_app_r. by apply IH.
Qed.

(** C8, as stated, fails: [strip] also removes white space at the end of
    the remainder, and putting leading white space back does not return it. *)
Lemma split_message_loses_trailing_space :
  ~ (forall (text : str) (n : Z),
       1 <= n ->
       exists chunks,
         split_message text n = Some chunks /\ rebuilds_lead text chunks).
Proof.
  intros H. destruct (H (lit "aaaa bbb  ") 5) as (chunks & Hrun & Hreb); [lia|].
  vm_compute in Hrun. injection Hrun as <-.
  apply rebuilds_lead_suffix with (c := lit "bbb") in Hreb; [|done].
  destruct Hreb as [k Hk].
  apply (f_equal (fun l : str => last l)) in Hk.
  rewrite last_app in Hk. vm_compute in Hk. discriminate.
Qed.

(** C8, amended: for a chunk size of at least one, the chunks returned by
    [split_message] give the text back once the white space that [strip]
    removed from both ends of the remainder at each split is put back. *)
Theorem split_message_rebuilds (text : str) (n : Z) :
  1 <= n ->
  exists chunks,
    split_message text n = Some chunks /\ rebuilds_trim text chunks.
Proof.
  intros Hn.
  destruct (split_loop_spec n Hn (S (length text)) [] text)
    as (chunks & Hrun & _ & _ & Hreb & _); [lia|].
  by exists chunks.
Qed.

Lemma split_message_rebuilds_witness :
  1 <= 5 /\
  exists chunks,
    split_message (lit "aaaa bbb  ") 5 = Some chunks
    /\ rebuilds_trim (lit "aaaa bbb  ") chunks.
Proof.
  split; [lia|]. apply (split_message_rebuilds (lit "aaaa bbb  ") 5). lia.
Defined.

(** ** Selection of entries *)

(** The watermark is 100 and the feed lists 300, 200 and 100, newest first:
    200 and 300 are processed, in this order, and the watermark becomes
    300. *)
Example poll_cycle_scenario :
  let r := poll_cycle calm_world 1500 [] ({[feed_a := 100]} : gmap str Z) in
  published_parsed <$> processed (events r) = [Some 200; Some 300]
  /\ store_after r !! feed_a = Some 300
  /\ result r = Return tt.
Proof. repeat split; vm_compute; reflexivity. Qed.

(** A feed flagged by the parser is skipped: no call, no write. *)
Example poll_feed_bozo (w : world) (parsed : parsed_feed) h s :
  feedparser_parse w h feed_a = Return parsed ->
  bozo parsed = true ->
  poll_feed w 1500 (feed_a, 100) h s = Run [EvParse feed_a] s (Return tt).
Proof.
  intros Hparse Hbozo. unfold poll_feed, poll_feed_body. cbn [fst snd].
  run_unfold. rewrite Hparse. cbn [events result store_after]. by rewrite Hbozo.
Qed.

Lemma selected_new (last_ts : Z) (es : list entry) :
  Forall (fun e => exists ts, published_parsed e = Some ts /\ last_ts < ts)
    (selected last_ts es).
Proof.
  unfold selected. apply Forall_forall. intros e He.
  apply list_elem_of_In, filter_In in He as [_ He]. by apply is_new_stamp.
Qed.

Lemma selected_sorted (last_ts : Z) (es : list entry) :
  StronglySorted (key_le sort_key) (selected last_ts es).
Proof. unfold selected. apply filter_sorted, sorted_sorted. Qed.

(** What holds of the selected entries holds of the calls made. *)
Lemma poll_feed_processed_Forall (P : entry -> Prop) (w : world)
    (max_response_length : Z) (feed : str * Z) (h : trace) (s : gmap str Z) :
  Forall P (selected feed.2 (feed_entries w h feed.1)) ->
  Forall P (processed (events (poll_feed w max_response_length feed h s))).
Proof.
  intros Hall.
  destruct (poll_feed_run w max_response_length feed h s) as (_ & [k Hk] & _).
  rewrite Hk in Hall. by apply Forall_app in Hall as [Hall _].
Qed.

(** The loop over the snapshot is a sequence of passes, one per feed reached,
    and in each pass the calls of [process_entry] lie above the watermark
    the snapshot has for the feed. *)
Lemma for_each_poll_feed_passes (w : world) (max_response_length : Z)
    (feeds : list (str * Z)) :
  forall h s,
    exists passes : list ((str * Z) * trace),
      processed (events (for_each feeds (poll_feed w max_response_length) h s))
      = concat ((fun p => processed p.2) <$> passes)
      /\ Forall (fun p =>
                   p.1 ∈ feeds
                   /\ Forall (fun e => exists ts,
                                published_parsed e = Some ts /\ p.1.2 < ts)
                        (processed p.2))
           passes.
Proof.
  induction feeds as [|f feeds IH]; intros h s.
  - exists []. split; [done | constructor].
  - cbn [for_each]. rewrite bind_run.
    pose proof (poll_feed_processed_Forall _ w max_response_length f h s
                  (selected_new _ _)) as Hnew.
    destruct (poll_feed w max_response_length f h s) as [ev st res].
    cbn [events result store_after] in *.
    destruct res as [[]|err|]; cbn [events result store_after].
    + destruct (IH (h ++ ev) st) as (passes & Heq & Hall).
      exists ((f, ev) :: passes). split.
      * rewrite processed_app, Heq. done.
      * constructor; [split; [by left | done]|].
        eapply Forall_impl; [exact Hall|].
        intros p [Hin Hp]. split; [by right | done].
    + exists [(f, ev)]. split; [cbn; by rewrite app_nil_r|].
      constructor; [split; [by left | done] | constructor].
    + exists [(f, ev)]. split; [cbn; by rewrite app_nil_r|].
      constructor; [split; [by left | done] | constructor].
Qed.

(** C1: in the pass over one feed of a poll cycle, every entry handed to
    [process_entry] has a published time stamp, and this time stamp lies
    strictly above the watermark the pass was started with; and the calls
    of [process_entry] of a whole poll cycle fall into such passes, one for
    each feed reached, each started with the watermark the store had for the
    feed when the cycle began. *)
Theorem only_new_entries_processed (w : world) (max_response_length : Z)
    (h : trace) (s : gmap str Z) :
  (forall (feed_url : str) (last_ts : Z),
     Forall (fun e => exists ts, published_parsed e = Some ts /\ last_ts < ts)
       (processed
          (events (poll_feed w max_response_length (feed_url, last_ts) h s))))
  /\ exists passes : list ((str * Z) * trace),
       processed (events (poll_cycle w max_response_length h s))
       = concat ((fun p => processed p.2) <$> passes)
       /\ Forall (fun p =>
                    s !! p.1.1 = Some p.1.2
                    /\ Forall (fun e => exists ts,
                                 published_parsed e = Some ts /\ p.1.2 < ts)
                         (processed p.2))
            passes.
Proof.
  split.
  { intros feed_url last_ts.
    apply (poll_feed_processed_Forall _ w max_response_length (feed_url, last_ts)).
    apply selected_new. }
  unfold poll_cycle. rewrite bind_run.
  assert (exists ev feeds,
    get_feeds w h s = Run ev s (Return feeds)
    /\ processed ev = [] /\ (feeds = s \/ feeds = ∅))
    as (ev & feeds & -> & Hev & Hfeeds).
  { unfold get_feeds, hgetall. run_unfold.
    destruct (redis_up w h); cbn [events result store_after]; eauto 10. }
  cbn [events result store_after]. rewrite bind_run.
  destruct (for_each_poll_feed_passes w max_response_length (map_to_list feeds)
              (h ++ ev) s) as (passes & Heq & Hall).
  exists passes. split.
  - destruct (for_each _ _ _ _) as [ev' st res].
    cbn [events result store_after] in *.
    destruct res as [[]|err|]; cbn [call events result store_after];
      rewrite ?processed_app, Hev, Heq; cbn [processed app];
      by rewrite ?app_nil_r.
  - eapply Forall_impl; [exact Hall|].
    intros [[url v] t] [Hin Hp]. split; [|done]. cbn [fst snd].
    apply elem_of_map_to_list in Hin.
    destruct Hfeeds as [-> | ->]; [done | by rewrite lookup_empty in Hin].
Qed.

(** C4: in the pass over one feed of a poll cycle, an entry handed to
    [process_entry] before another one has a published time stamp that is
    less than or equal to the other's. *)
Theorem entries_processed_in_order (w : world) (max_response_length : Z)
    (feed_url : str) (last_ts : Z) (h : trace) (s : gmap str Z)
    (i j : nat) (a b : entry) :
  (i < j)%nat ->
  processed (events (poll_feed w max_response_length (feed_url, last_ts) h s)) !! i
    = Some a ->
  processed (events (poll_feed w max_response_length (feed_url, last_ts) h s)) !! j
    = Some b ->
  exists ta tb,
    published_parsed a = Some ta /\ published_parsed b = Some tb /\ ta <= tb.
Proof.
  intros Hij Ha Hb.
  pose proof (poll_feed_processed_Forall _ w max_response_length
                (feed_url, last_ts) h s (selected_new _ _)) as Hnew.
  destruct (poll_feed_run w max_response_length (feed_url, last_ts) h s)
    as (_ & Hpre & _).
  cbn [fst snd] in Hpre.
  pose proof (prefix_sorted sort_key _ _ Hpre (selected_sorted _ _)) as Hsorted.
  pose proof (sorted_lookup sort_key _ i j a b Hsorted Hij Ha Hb) as Hle.
  rewrite Forall_forall in Hnew.
  destruct (Hnew a) as (ta & Hta & _); [by eapply list_elem_of_lookup_2|].
  destruct (Hnew b) as (tb & Htb & _); [by eapply list_elem_of_lookup_2|].
  exists ta, tb. unfold sort_key in Hle. rewrite Hta, Htb in Hle. done.
Qed.

Lemma entries_processed_in_order_witness :
  exists ta tb,
    published_parsed (entry_at 200 "second") = Some ta
    /\ published_parsed (entry_at 300 "third") = Some tb
    /\ ta <= tb.
Proof.
  apply (entries_processed_in_order calm_world 1500 feed_a 100 [] ∅ 0 1);
    [lia | vm_compute; reflexivity | vm_compute; reflexivity].
Defined.

(** ** Watermarks *)

(** C2, as stated, fails: [add_feed] writes the watermark it computes from
    the feed without looking at the stored one, so on a feed that is already
    watched it can put a smaller value in its place. *)
Lemma add_feed_lowers_watermark :
  ~ (forall (w : world) (max_response_length : Z) (op : store_op)
       (url : str) (h : trace) (s : gmap str Z) (v v' : Z),
       s !! url = Some v ->
       store_after (run_op w max_response_length op h s) !! url = Some v' ->
       v <= v').
Proof.
  intros H.
  specialize (H calm_world 1500 (OpAddFeed feed_a) feed_a []
                ({[feed_a := 500]} : gmap str Z) 500 300).
  assert (500 <= 300) as Hle; [|lia].
  apply H; vm_compute; reflexivity.
Qed.

(** C2, amended: across every sequence of [add_feed], [remove_feed] and poll
    cycles in which [add_feed] is not called on the url itself, a watermark
    that is still stored for the url afterwards is not smaller than the one
    stored before ([add_feed] on a watched url starts its watermark afresh
    and is left out). *)
Theorem watermark_never_lowered (w : world) (max_response_length : Z)
    (ops : list store_op) (url : str) (h : trace) (s : gmap str Z) (v v' : Z) :
  OpAddFeed url ∉ ops ->
  s !! url = Some v ->
  store_after (run_ops w max_response_length ops h s) !! url = Some v' ->
  v <= v'.
Proof.
  intros Hops Hv Hv'.
  pose proof (run_ops_store w max_response_length ops url Hops h s) as Hle.
  by rewrite Hv, Hv' in Hle.
Qed.

Lemma watermark_never_lowered_witness : 100 <= 300.
Proof.
  apply (watermark_never_lowered calm_world 1500
           [OpPollCycle; OpAddFeed feed_b; OpRemoveFeed feed_b; OpPollCycle]
           feed_a [] ({[feed_a := 100]} : gmap str Z) 100 300).
  - apply (bool_decide_unpack _). vm_compute. exact I.
  - vm_compute. reflexivity.
  - vm_compute. reflexivity.
Defined.

Lemma foldr_max_start (a t : Z) (l : list Z) :
  foldr Z.max (Z.max a t) l = Z.max t (foldr Z.max a l).
Proof. induction l as [|x l IH]; simpl; lia. Qed.

Lemma published_stamps_cons (e : entry) (es : list entry) :
  published_stamps (e :: es) =
    match published_parsed e with
    | Some t => t :: published_stamps es
    | None => published_stamps es
    end.
Proof. reflexivity. Qed.

(** The loop of [add_feed] computes the largest of [0.0] and the published
    time stamps. *)
Lemma newest_published_max (es : list entry) :
  newest_published es = foldr Z.max 0 (published_stamps es).
Proof.
  unfold newest_published. generalize 0 as a.
  induction es as [|e es IH]; intros a; [done|].
  cbn [fold_left]. rewrite IH, published_stamps_cons.
  destruct (published_parsed e) as [t|]; [|done].
  cbn [foldr]. rewrite <- foldr_max_start.
  destruct (Z.gtb_spec t a); f_equal; lia.
Qed.

Lemma foldr_max_swap (a : Z) (l : list Z) :
  Z.max 0 (foldr Z.max a l) = Z.max a (foldr Z.max 0 l).
Proof. induction l as [|x l IH]; simpl; lia. Qed.

Lemma foldr_max_nonneg (t : Z) (ts : list Z) :
  0 <= foldr Z.max t ts -> foldr Z.max 0 (t :: ts) = foldr Z.max t ts.
Proof.
  intros H. cbn [foldr]. pose proof (foldr_max_swap t ts). lia.
Qed.




(** ** Summaries *)

(** C5, as stated, fails in two places: when the language model raises, the
    text is a fixed prefix followed by the message of the exception, so no
    single string serves for all failures; and an answer of the model is
    stripped of the white space around it before it is used. *)
Lemma error_summary_not_fixed :
  ~ (exists failure : str,
       forall (message : str),
         result (summary_text_of (failing_model_world message) (lit "x") [] ∅)
         = Return failure)
  /\ ollama_chat calm_world [EvGet (lit "x")]
       (summarization_prompt (lit "Menu" ++ [NL] ++ lit "Story"))
     = Return (Message (Some (lit " A summary. ")))
  /\ result (summary_text_of calm_world (lit "x") [] ∅)
     = Return (lit "A summary.").
Proof.
  split; [|split; vm_compute; reflexivity].
  intros [failure H].
  pose proof (H (lit "timeout")) as H1. pose proof (H (lit "refused")) as H2.
  vm_compute in H1, H2. congruence.
Qed.

(** C5, amended: the body of the announcement is the summary text after
    [format_summary_for_discord], and the summary text is chosen as follows.
    If the extraction yields nothing (null or empty text), it is the fixed
    fallback string and the language model is not called.  Otherwise the
    model is called once; if its answer is empty after stripping white space,
    it is the fixed failure string; if the call raises, it is the fixed
    prefix "Error summarizing article: " followed by the message of the
    exception; otherwise it is the answer stripped of surrounding white
    space. *)
Theorem summary_selection (w : world) (feed_title : str) (e : entry)
    (h : trace) (s : gmap str Z) :
  let fetched := fetch_web_summary w (default [] (link e)) h s in
  let r := announcement_of w feed_title e h s in
  (result fetched = Return None \/ result fetched = Return (Some []) ->
   result r = Return (announcement_with feed_title e NO_SUMMARY)
   /\ forall prompt, EvChat prompt ∉ events r)
  /\ forall article_text,
       result fetched = Return (Some article_text) ->
       article_text ≠ [] ->
       events r = events fetched ++ [EvChat (summarization_prompt article_text)]
       /\ match ollama_chat w (h ++ events fetched)
                  (summarization_prompt article_text) with
          | Return (Message content) =>
              result r = Return (announcement_with feed_title e
                (match strip (default [] content) with
                 | [] => EMPTY_SUMMARY
                 | summary_text => summary_text
                 end))
          | Return NoMessage =>
              result r = Return (announcement_with feed_title e
                                   (ERROR_PREFIX ++ lit "'message'"))
          | Raise err =>
              result r = Return (announcement_with feed_title e
                                   (ERROR_PREFIX ++ err))
          | Hang => result r = Hang
          end.
Proof.
  intros fetched r. subst fetched r.
  unfold announcement_of, summary_text_of, announcement_with.
  rewrite !bind_run.
  pose proof (fetch_web_summary_events w (default [] (link e)) h s) as Hev.
  destruct (fetch_web_summary w (default [] (link e)) h s) as [ev st res].
  cbn [events result store_after] in *. subst ev. split.
  - intros [-> | ->]; cbn [events result store_after mret M_ret ret app];
      (split; [done|]); intros prompt Hin;
      apply list_elem_of_singleton in Hin; discriminate.
  - intros article_text -> Hne.
    destruct article_text as [|c text]; [done|].
    cbn [events result store_after]. rewrite try_except_run, bind_run.
    cbn [call events result store_after].
    destruct (ollama_chat w (h ++ [EvGet (default [] (link e))])
                (summarization_prompt (c :: text))) as [[|content]|err|];
      cbn [events result store_after raise mret M_ret ret app];
      rewrite ?app_nil_r; try done.
    by destruct (strip (default [] content)).
Qed.

Lemma summary_selection_witness :
  result (announcement_of (failing_model_world (lit "timeout")) (lit "Feed A")
            (entry_at 200 "second") [] ∅)
  = Return (announcement_with (lit "Feed A") (entry_at 200 "second")
              (ERROR_PREFIX ++ lit "timeout")).
Proof.
  destruct (summary_selection (failing_model_world (lit "timeout")) (lit "Feed A")
              (entry_at 200 "second") [] ∅) as [_ H].
  destruct (H (lit "Menu" ++ [NL] ++ lit "Story")) as [_ Hres];
    [vm_compute; reflexivity | discriminate |].
  exact Hres.
Defined.

(** ** Failures of the sinks *)

Lemma poll_cycle_parses (w : world) (max_response_length : Z) h s :
  result (poll_cycle w max_response_length h s) ≠ Hang ->
  redis_up w h = true ->
  forall url v, s !! url = Some v ->
    EvParse url ∈ events (poll_cycle w max_response_length h s).
Proof.
  unfold poll_cycle, get_feeds, hgetall. intros Hres Hup url v Hv.
  rewrite bind_run, try_except_run in *. rewrite Hup in *.
  cbn [events result store_after] in *. rewrite bind_run in *.
  pose proof (for_each_poll_feed_parses w max_response_length (map_to_list s)
                (h ++ [EvHgetall]) s) as Hloop.
  destruct (for_each (map_to_list s) (poll_feed w max_response_length)
              (h ++ [EvHgetall]) s) as [ev st res].
  cbn [events result store_after] in *.
  assert (EvParse url ∈ ev) as Hin.
  { apply (Hloop (ltac:(by destruct res)) (url, v)).
    by apply elem_of_map_to_list. }
  destruct res as [[]|e|]; cbn [events]; set_solver.
Qed.

Lemma no_raise_poll_cycle (w : world) (max_response_length : Z) :
  no_raise (poll_cycle w max_response_length).
Proof.
  unfold poll_cycle.
  apply no_raise_bind.
  { unfold get_feeds. apply no_raise_try_except. intros e. apply no_raise_ret. }
  intros feeds. apply no_raise_bind; [apply no_raise_for_each_poll_feed|].
  intros _ h s e. done.
Qed.



(** ** Extraction *)

(** C6: on a page that has a menu next to its article, the extractor of
    rss.py returns the text of the whole page, where the extractor of the
    web search plugin returns the text of the article; and on a page of 3001
    words it returns all of them, where the plugin stops at 3000. *)
Theorem rss_extractor_takes_whole_page :
  result (fetch_web_summary calm_world (lit "https://example.org/second") [] ∅)
  = Return (Some (lit "Menu" ++ [NL] ++ lit "Story"))
  /\ result (web_search_fetch_web_summary calm_world
               (lit "https://example.org/second") [] ∅)
     = Return (Some (lit "Story"))
  /\ length (split_ws (rss_article_text long_page)) = 3001%nat
  /\ (length ∘ split_ws) <$> web_search_article_text long_page = Some 3000%nat.
Proof. repeat split; vm_compute; reflexivity. Qed.

(** * Further properties of the code *)

(** ** The poller *)

Section PollerFacts.

Variable w : world.
Variable max_response_length : Z.

Lemma selected_stamps_above (last_ts : Z) (es : list entry) :
  Forall (fun t => last_ts < t) (published_stamps (selected last_ts es)).
Proof.
  pose proof (selected_new last_ts es) as Hnew.
  induction Hnew as [|e l (ts & Hts & Hlt) Hl IH]; [constructor|].
  rewrite published_stamps_cons, Hts. by constructor.
Qed.

Lemma foldr_max_ge (a : Z) (l : list Z) :
  a <= foldr Z.max a l /\ Forall (fun t => t <= foldr Z.max a l) l.
Proof.
  induction l as [|x l [IH1 IH2]]; simpl; [split; [lia | constructor]|].
  split; [lia|]. constructor; [lia|].
  eapply Forall_impl; [exact IH2|]. intros t Ht. simpl in Ht. lia.
Qed.

Lemma foldr_max_in (a : Z) (l : list Z) :
  foldr Z.max a l = a \/ foldr Z.max a l ∈ l.
Proof.
  induction l as [|x l [IH|IH]]; simpl; [by left|..].
  - destruct (Z.max_spec x (foldr Z.max a l)) as [[_ ->]|[_ ->]];
      [by left | right; by left].
  - destruct (Z.max_spec x (foldr Z.max a l)) as [[_ ->]|[_ ->]];
      right; [by right | by left].
Qed.

Lemma nothing_new_above (last_ts m : Z) (l : list entry) :
  last_ts <= m ->
  Forall (fun t => t <= m) (published_stamps (List.filter (is_new last_ts) l)) ->
  List.filter (is_new m) l = [].
Proof.
  intros Hge. induction l as [|e l IH]; [done|].
  cbn [List.filter].
  assert (forall x, is_new x e = match published_parsed e with
                                 | Some t => t >? x
                                 | None => false
                                 end) as Hn by done.
  rewrite !Hn.
  destruct (published_parsed e) as [t|] eqn:Ht; [|by apply IH].
  destruct (Z.gtb_spec t last_ts) as [Hnew|Hold].
  - rewrite published_stamps_cons, Ht. intros Hall.
    apply Forall_cons in Hall as [Hle Hall].
    destruct (Z.gtb_spec t m); [lia | by apply IH].
  - intros Hall. destruct (Z.gtb_spec t m); [lia | by apply IH].
Qed.

(** Above the value the loop ends with, nothing is left to select. *)
Lemma selected_above_newest (last_ts : Z) (es : list entry) :
  selected (newest_selected last_ts es) es = [].
Proof.
  unfold newest_selected.
  destruct (foldr_max_ge last_ts (published_stamps (selected last_ts es)))
    as [Hge Hall].
  unfold selected at 1. by apply (nothing_new_above last_ts).
Qed.

(** The [try] block of one feed, by the way it ends: on an exception or a
    hang the hash is as before; when it returns, every selected entry went
    through [process_entry] and the watermark is the newest of them. *)
Lemma poll_feed_body_commit (feed_url : str) (last_ts : Z) h s :
  let r := poll_feed_body w max_response_length feed_url last_ts h s in
  let es := feed_entries w h feed_url in
  match result r with
  | Return _ =>
      processed (events r) = selected last_ts es
      /\ store_after r =
           match selected last_ts es with
           | [] => s
           | _ => <[feed_url := newest_selected last_ts es]> s
           end
  | _ => store_after r = s
  end.
Proof.
  unfold poll_feed_body, feed_entries, newest_selected. rewrite bind_run.
  cbn [call events result store_after].
  destruct (feedparser_parse w h feed_url) as [pf|err|];
    cbn [events result store_after processed]; [|done..].
  destruct (bozo pf); [done|].
  rewrite bind_run.
  match goal with |- context [entries_loop _ _ ?ft ?l ?es ?n ?h' ?s'] =>
    destruct (entries_loop_run w max_response_length ft l es n h' s')
      as (Hs & Hpre & Hret);
    destruct (entries_loop w max_response_length ft l es n h' s')
      as [ev st res] end.
  cbn [events result store_after] in *. subst st.
  destruct res as [ts|err|]; cbn [events result store_after app processed];
    [|done..].
  destruct (Hret ts eq_refl) as [Hp ->]. fold (selected last_ts (entries pf)) in *.
  pose proof (selected_stamps_above last_ts (entries pf)) as Habove.
  destruct (selected last_ts (entries pf)) as [|e l] eqn:Hsel.
  - cbn. rewrite Z.gtb_ltb, Z.ltb_irrefl. cbn. by rewrite app_nil_r.
  - destruct (foldr_max_ge last_ts (published_stamps (e :: l))) as [_ Hall].
    assert (last_ts < foldr Z.max last_ts (published_stamps (e :: l))) as Hlt.
    { destruct (selected_new last_ts (entries pf)) as [|e' l' (t & Ht & Hlt) _];
        [done|]. injection Hsel as -> ->.
      rewrite published_stamps_cons, Ht in *.
      apply Forall_cons in Hall as [Hle _]. lia. }
    destruct (Z.gtb_spec (foldr Z.max last_ts (published_stamps (e :: l))) last_ts);
      [|lia].
    unfold hset. destruct (redis_up w _); cbn [events result store_after];
      [|done].
    rewrite processed_app, app_nil_r. done.
Qed.

Lemma poll_feed_as_body (feed_url : str) (last_ts : Z) h s :
  events (poll_feed w max_response_length (feed_url, last_ts) h s)
  = events (poll_feed_body w max_response_length feed_url last_ts h s)
  /\ store_after (poll_feed w max_response_length (feed_url, last_ts) h s)
     = store_after (poll_feed_body w max_response_length feed_url last_ts h s).
Proof.
  unfold poll_feed. cbn [fst snd]. rewrite try_except_run.
  destruct (result (poll_feed_body _ _ _ _ _ _)); cbn [events store_after mret M_ret ret];
    by rewrite ?app_nil_r.
Qed.

Lemma newest_selected_spec (last_ts : Z) (es : list entry) :
  selected last_ts es ≠ [] ->
  last_ts < newest_selected last_ts es
  /\ Forall (fun t => t <= newest_selected last_ts es)
       (published_stamps (selected last_ts es))
  /\ newest_selected last_ts es ∈ published_stamps (selected last_ts es).
Proof.
  intros Hne. unfold newest_selected.
  pose proof (selected_stamps_above last_ts es) as Habove.
  destruct (foldr_max_ge last_ts (published_stamps (selected last_ts es)))
    as [Hge Hall].
  assert (published_stamps (selected last_ts es) ≠ []) as Hne'.
  { destruct (selected_new last_ts es) as [|e l (t & Ht & _) _]; [done|].
    by rewrite published_stamps_cons, Ht. }
  assert (last_ts < foldr Z.max last_ts (published_stamps (selected last_ts es)))
    as Hlt.
  { destruct (published_stamps (selected last_ts es)) as [|t l]; [done|].
    apply Forall_cons in Habove as [Ht _]. apply Forall_cons in Hall as [Hle _].
    lia. }
  split; [done|]. split; [done|].
  destruct (foldr_max_in last_ts (published_stamps (selected last_ts es))); [lia | done].
Qed.

(** X1: when the pass over a feed changes the store, every selected entry of
    the feed has been handed to [process_entry] before, and the new
    watermark is the largest published time stamp among them. *)
Theorem watermark_written_after_all_entries (feed_url : str) (last_ts : Z)
    (h : trace) (s : gmap str Z) :
  let r := poll_feed w max_response_length (feed_url, last_ts) h s in
  let es := feed_entries w h feed_url in
  store_after r ≠ s ->
  processed (events r) = selected last_ts es
  /\ store_after r = <[feed_url := newest_selected last_ts es]> s
  /\ last_ts < newest_selected last_ts es
  /\ Forall (fun t => t <= newest_selected last_ts es)
       (published_stamps (processed (events r)))
  /\ newest_selected last_ts es ∈ published_stamps (processed (events r)).
Proof.
  intros r es Hchanged. subst r es.
  destruct (poll_feed_as_body feed_url last_ts h s) as [Hev Hst].
  rewrite Hev, Hst in *.
  pose proof (poll_feed_body_commit feed_url last_ts h s) as Hcommit.
  cbv zeta in Hcommit.
  destruct (result (poll_feed_body _ _ _ _ _ _)); [|done..].
  destruct Hcommit as [Hp Hs]. rewrite Hp.
  destruct (selected last_ts (feed_entries w h feed_url)) as [|e l] eqn:Hsel;
    [done|].
  rewrite <- Hsel.
  destruct (newest_selected_spec last_ts (feed_entries w h feed_url))
    as (H1 & H2 & H3); [by rewrite Hsel|].
  done.
Qed.


End PollerFacts.

Lemma poll_feed_run_witness_store :
  store_after (poll_feed calm_world 1500 (feed_a, 100) []
                 ({[feed_a := 100]} : gmap str Z))
  ≠ ({[feed_a := 100]} : gmap str Z).
Proof.
  intros Heq. apply (f_equal (fun m : gmap str Z => m !! feed_a)) in Heq.
  vm_compute in Heq. discriminate.
Qed.

Lemma watermark_written_after_all_entries_witness :
  published_parsed
    <$> processed (events (poll_feed calm_world 1500 (feed_a, 100) []
                             ({[feed_a := 100]} : gmap str Z)))
  = [Some 200; Some 300]
  /\ newest_selected 100 (feed_entries calm_world [] feed_a) = 300.
Proof.
  destruct (watermark_written_after_all_entries calm_world 1500 feed_a 100 []
              ({[feed_a := 100]} : gmap str Z) poll_feed_run_witness_store)
    as (Hp & _).
  split; [rewrite Hp|]; vm_compute; reflexivity.
Defined.


Section NoBacklog.

Variable w : world.
Variable max_response_length : Z.

Lemma nothing_selected_above_all (v : Z) (es : list entry) :
  Forall (fun t => t <= v) (published_stamps es) -> selected v es = [].
Proof.
  intros Hall. unfold selected.
  assert (Forall (fun e => forall t, published_parsed e = Some t -> t <= v)
            (sorted es sort_key)) as Hsorted.
  { rewrite sorted_perm. clear -Hall.
    induction es as [|e es IH]; [constructor|].
    rewrite published_stamps_cons in Hall.
    destruct (published_parsed e) as [t|] eqn:Ht.
    - apply Forall_cons in Hall as [Hle Hall].
      constructor; [|by apply IH]. intros t' Ht'. by simplify_eq.
    - constructor; [intros t' Ht'; congruence | by apply IH]. }
  induction Hsorted as [|e l He Hl IH]; [done|].
  cbn [List.filter]. unfold is_new at 1.
  destruct (published_parsed e) as [t|]; [|done].
  destruct (Z.gtb_spec t v) as [Hgt|_]; [|done].
  specialize (He t eq_refl). lia.
Qed.

(** X3: a feed that was just added is not replayed: as long as the document
    lists the entries it listed when [add_feed] returned true, a pass started
    with the watermark [add_feed] stored hands nothing to [process_entry]
    and leaves the store alone. *)
Theorem add_feed_no_backlog (feed_url : str) (h : trace) (s : gmap str Z)
    (parsed : parsed_feed) :
  feedparser_parse w h feed_url = Return parsed ->
  result (add_feed w feed_url h s) = Return true ->
  exists v,
    store_after (add_feed w feed_url h s) !! feed_url = Some v
    /\ forall h' s',
         feed_entries w h' feed_url = entries parsed ->
         processed (events (poll_feed w max_response_length (feed_url, v) h' s'))
         = []
         /\ store_after (poll_feed w max_response_length (feed_url, v) h' s')
            = s'.
Proof.
  intros Hparse Hres.
  assert (exists v,
    store_after (add_feed w feed_url h s) !! feed_url = Some v
    /\ selected v (entries parsed) = []) as (v & Hv & Hsel).
  { revert Hres. unfold add_feed. run_unfold. rewrite Hparse.
    cbn [events result store_after].
    destruct (bozo parsed); [done|].
    destruct (entries parsed) as [|e es] eqn:Hes; run_unfold; unfold hset;
      match goal with |- context [redis_up w ?x] => destruct (redis_up w x) end;
      cbn [events result store_after]; try done; intros _;
      rewrite lookup_insert_eq; eexists; (split; [done|]).
    - done.
    - apply nothing_selected_above_all. rewrite newest_published_max.
      apply foldr_max_ge. }
  exists v. split; [done|]. intros h' s' Hsame.
  destruct (poll_feed_as_body w max_response_length feed_url v h' s') as [-> ->].
  pose proof (poll_feed_body_commit w max_response_length feed_url v h' s')
    as Hcommit.
  destruct (poll_feed_body_run w max_response_length feed_url v h' s')
    as (_ & Hpre & _).
  cbv zeta in Hcommit. rewrite Hsame, Hsel in *.
  apply prefix_nil_inv in Hpre. split; [done|].
  by destruct (result (poll_feed_body _ _ _ _ _ _)) as [[]| |]; [destruct Hcommit|..].
Qed.

Lemma for_each_poll_feed_dom (feeds : list (str * Z)) :
  forall h s,
    (forall f, f ∈ feeds -> f.1 ∈ dom s) ->
    dom (store_after (for_each feeds (poll_feed w max_response_length) h s))
    = dom s.
Proof.
  induction feeds as [|[u v] feeds IH]; intros h s Hin; [done|].
  cbn [for_each]. rewrite bind_run.
  destruct (poll_feed_run w max_response_length (u, v) h s) as (Hs & _).
  cbn [fst snd] in Hs.
  destruct (poll_feed w max_response_length (u, v) h s) as [ev st res].
  cbn [events result store_after] in *.
  assert (dom st = dom s) as Hdom.
  { destruct Hs as [->|(v' & _ & ->)]; [done|].
    rewrite dom_insert_L. specialize (Hin (u, v) ltac:(by left)).
    cbn [fst] in Hin. apply subseteq_union_1_L. by apply singleton_subseteq_l. }
  destruct res as [[]|e|]; cbn [events result store_after]; [|done..].
  rewrite IH; [done|]. intros f Hf. rewrite Hdom. apply Hin. by right.
Qed.

Lemma poll_cycle_dom h s :
  dom (store_after (poll_cycle w max_response_length h s)) = dom s.
Proof.
  unfold poll_cycle. rewrite bind_run.
  assert (exists ev feeds,
    get_feeds w h s = Run ev s (Return feeds) /\ (feeds = s \/ feeds = ∅))
    as (ev & feeds & -> & Hfeeds).
  { unfold get_feeds. rewrite try_except_run. unfold hgetall.
    destruct (redis_up w h); cbn; eauto. }
  cbn [events result store_after]. rewrite bind_run.
  pose proof (for_each_poll_feed_dom (map_to_list feeds) (h ++ ev) s) as Hloop.
  destruct (for_each (map_to_list feeds) (poll_feed w max_response_length) (h ++ ev) s)
    as [ev' st res].
  cbn [events result store_after] in *.
  assert (dom st = dom s) as Hdom.
  { apply Hloop. intros [u v] Huv. apply elem_of_map_to_list in Huv.
    cbn [fst]. destruct Hfeeds as [-> | ->].
    - apply elem_of_dom. by exists v.
    - by rewrite lookup_empty in Huv. }
  by destruct res as [[]|e|].
Qed.


End NoBacklog.

Lemma add_feed_no_backlog_witness :
  exists v,
    store_after (add_feed calm_world feed_a [] ∅) !! feed_a = Some v
    /\ processed (events (poll_feed calm_world 1500 (feed_a, v)
                            [EvParse feed_a; EvHset feed_a 300]
                            (store_after (add_feed calm_world feed_a [] ∅))))
       = [].
Proof.
  destruct (add_feed_no_backlog calm_world 1500 feed_a [] ∅
              {| bozo := false;
                 feed_title := Some (lit "Feed A");
                 entries := [entry_at 300 "third"; entry_at 200 "second";
                             entry_at 100 "first"] |})
    as (v & Hv & Hnext); [reflexivity | reflexivity |].
  exists v. split; [exact Hv|].
  apply (Hnext [EvParse feed_a; EvHset feed_a 300]). reflexivity.
Defined.

(** ** The feed store *)

Section FeedStore.

Variable w : world.

Lemma remove_feed_run (feed_url : str) h s :
  remove_feed w feed_url h s =
    if redis_up w h then
      Run [EvHdel feed_url] (delete feed_url s)
        (Return (bool_decide (is_Some (s !! feed_url))))
    else Run [EvHdel feed_url] s (Return false).
Proof.
  unfold remove_feed, hdel. run_unfold.
  destruct (redis_up w h); cbn [events result store_after]; [|done].
  destruct (s !! feed_url) as [v|] eqn:Hv; cbn [events result store_after app].
  - rewrite bool_decide_eq_true_2 by eauto. done.
  - rewrite bool_decide_eq_false_2 by (by intros [? ?]). done.
Qed.

(** X5: [remove_feed] never raises; it returns true exactly when Redis
    answered and the url was watched, in which case the url is gone and
    every other feed keeps its watermark; whenever it returns false the
    store is as it was. *)
Theorem remove_feed_contract (feed_url : str) (h : trace) (s : gmap str Z) :
  let r := remove_feed w feed_url h s in
  (exists b, result r = Return b)
  /\ (result r = Return true <-> redis_up w h = true /\ is_Some (s !! feed_url))
  /\ (result r = Return true -> store_after r = delete feed_url s)
  /\ (result r = Return false -> store_after r = s).
Proof.
  cbv zeta. rewrite remove_feed_run.
  destruct (redis_up w h); cbn [events result store_after].
  - split; [eauto|]. destruct (s !! feed_url) as [v|] eqn:Hv.
    + rewrite bool_decide_eq_true_2 by eauto.
      repeat split; eauto; done.
    + rewrite bool_decide_eq_false_2 by (by intros [? ?]).
      split; [split; [done | by intros [_ [? ?]]]|].
      split; [done|]. intros _. by apply delete_id.
  - split; [eauto|]. split; [split; [done | by intros [? _]]|]. done.
Qed.

(** X6: with Redis answering, a feed that [add_feed] accepted is listed by
    [get_feeds] with the watermark stored and the other feeds as they were,
    and [remove_feed] then returns true and, if the url was not watched
    before, gives back the store from before [add_feed]. *)
Theorem add_list_remove_round_trip (feed_url : str) (h h1 h2 : trace)
    (s : gmap str Z) :
  result (add_feed w feed_url h s) = Return true ->
  redis_up w h1 = true ->
  redis_up w h2 = true ->
  let s1 := store_after (add_feed w feed_url h s) in
  (exists v,
     result (get_feeds w h1 s1) = Return (<[feed_url := v]> s))
  /\ result (remove_feed w feed_url h2 s1) = Return true
  /\ store_after (remove_feed w feed_url h2 s1) = delete feed_url s
  /\ (s !! feed_url = None -> store_after (remove_feed w feed_url h2 s1) = s).
Proof.
  intros Hadd Hup1 Hup2 s1.
  assert (exists v, s1 = <[feed_url := v]> s) as [v Hs1].
  { subst s1. revert Hadd. unfold add_feed. run_unfold.
    destruct (feedparser_parse w h feed_url) as [pf|e|];
      cbn [events result store_after]; [|done..].
    destruct (bozo pf); [done|].
    destruct (entries pf) as [|e es]; run_unfold; unfold hset;
      match goal with |- context [redis_up w ?x] => destruct (redis_up w x) end;
      cbn [events result store_after]; try done; eauto. }
  rewrite Hs1. split.
  { exists v. unfold get_feeds, hgetall. run_unfold. by rewrite Hup1. }
  rewrite remove_feed_run, Hup2. cbn [events result store_after].
  rewrite lookup_insert_eq, bool_decide_eq_true_2 by eauto.
  rewrite delete_insert_eq.
  split; [done|]. split; [done|]. intros Hnone. by apply delete_id.
Qed.


End FeedStore.

Lemma add_list_remove_round_trip_witness :
  result (remove_feed calm_world feed_a [] (store_after (add_feed calm_world feed_a [] ∅)))
  = Return true
  /\ store_after (remove_feed calm_world feed_a []
                    (store_after (add_feed calm_world feed_a [] ∅)))
     = ∅.
Proof.
  destruct (add_list_remove_round_trip calm_world feed_a [] [] [] ∅)
    as (_ & Hres & _ & Hback); [reflexivity..|].
  split; [exact Hres | apply Hback; reflexivity].
Defined.


(** ** What a run may call *)

Section Emits.

Context {A B : Type} (P : event -> Prop).

Lemma emits_ret (a : A) : emits P (mret a : M A).
Proof. intros h s. constructor. Qed.

Lemma emits_raise (e : str) : emits P (raise e : M A).
Proof. intros h s. constructor. Qed.

Lemma emits_lift_option (o : option A) : emits P (lift_option o).
Proof. intros h s. constructor. Qed.

Lemma emits_call (ev : event) (answer : trace -> outcome A) :
  P ev -> emits P (call ev answer).
Proof. intros Hev h s. by repeat constructor. Qed.

(** The continuation only matters for the values the first part can
    return. *)
Lemma emits_bind (m : M A) (f : A -> M B) :
  emits P m ->
  (forall a, (exists h s, result (m h s) = Return a) -> emits P (f a)) ->
  emits P (m ≫= f).
Proof.
  intros Hm Hf h s. rewrite bind_run.
  destruct (result (m h s)) as [a| |] eqn:Hr; cbn [events]; [|apply Hm..].
  apply Forall_app. split; [apply Hm | apply Hf; eauto].
Qed.

Lemma emits_try_except (m : M A) (k : str -> M A) :
  emits P m -> (forall e, emits P (k e)) -> emits P (try_except m k).
Proof.
  intros Hm Hk h s. rewrite try_except_run.
  destruct (result (m h s)) as [a|e|] eqn:Hr; cbn [events]; [apply Hm| |apply Hm].
  apply Forall_app. split; [apply Hm | apply Hk].
Qed.

End Emits.

Lemma emits_for_each {A} (P : event -> Prop) (l : list A) (body : A -> M unit) :
  (forall x, x ∈ l -> emits P (body x)) -> emits P (for_each l body).
Proof.
  induction l as [|x l IH]; intros Hbody; cbn [for_each].
  - apply emits_ret.
  - apply emits_bind; [apply Hbody; by left|].
    intros _ _. apply IH. intros y Hy. apply Hbody. by right.
Qed.

Lemma emits_impl {A} (P Q : event -> Prop) (m : M A) :
  (forall ev, P ev -> Q ev) -> emits P m -> emits Q m.
Proof. intros HPQ Hm h s. eapply Forall_impl; [apply Hm | done]. Qed.

Lemma sent_app (t1 t2 : trace) : sent (t1 ++ t2) = sent t1 ++ sent t2.
Proof.
  induction t1 as [|ev t1 IH]; [done|]. destruct ev; simpl; by rewrite ?IH.
Qed.

Lemma posted_app (t1 t2 : trace) : posted (t1 ++ t2) = posted t1 ++ posted t2.
Proof.
  induction t1 as [|ev t1 IH]; [done|]. destruct ev; simpl; by rewrite ?IH.
Qed.

Lemma emits_not_send_sent (t : trace) : Forall not_send t -> sent t = [].
Proof.
  induction 1 as [|ev t Hev Ht IH]; [done|]. by destruct ev.
Qed.

Lemma emits_not_post_posted (t : trace) : Forall not_post t -> posted t = [].
Proof.
  induction 1 as [|ev t Hev Ht IH]; [done|]. by destruct ev.
Qed.

Create HintDb emits_db.
#[local] Hint Resolve emits_ret emits_raise emits_lift_option
  emits_try_except : emits_db.
#[local] Hint Extern 1 (emits _ (call _ _)) =>
  apply emits_call; exact I : emits_db.
#[local] Hint Extern 3 (emits _ (_ ≫= _)) =>
  apply emits_bind; [|intros ? _] : emits_db.
#[local] Hint Extern 2 (emits _ (for_each _ _)) =>
  apply emits_for_each; intros ? _ : emits_db.
#[local] Hint Extern 2 (emits _ (match ?x with _ => _ end)) =>
  destruct x : emits_db.
#[local] Hint Extern 2 (emits _ (if ?x then _ else _)) =>
  destruct x : emits_db.

Ltac emits_tac := intros; eauto 30 with emits_db.

(** ** Delivery of one entry *)

Section EntryDelivery.

Variable w : world.
Variable max_response_length : Z.

Lemma emits_fetch_web_summary (P : event -> Prop) (url : str) :
  P (EvGet url) -> emits P (fetch_web_summary w url).
Proof.
  intros HP. unfold fetch_web_summary.
  apply emits_try_except; [|emits_tac].
  apply emits_bind; [by apply emits_call | emits_tac].
Qed.

Lemma emits_announcement_of (P : event -> Prop) (feed_title : str) (e : entry) :
  (forall url, P (EvGet url)) -> (forall prompt, P (EvChat prompt)) ->
  emits P (announcement_of w feed_title e).
Proof.
  intros Hget Hchat. unfold announcement_of, summary_text_of.
  apply emits_bind; [|emits_tac].
  apply emits_bind; [by apply emits_fetch_web_summary|].
  intros [[|c text]|] _; [emits_tac| |emits_tac].
  apply emits_try_except; [|emits_tac].
  apply emits_bind; [by apply emits_call|].
  intros [|content] _; [emits_tac|].
  destruct (strip _); emits_tac.
Qed.

Lemma emits_send_to_channel (P : event -> Prop) (chunks : list str) :
  P EvGetChannel -> Forall (fun chunk => P (EvSend chunk)) chunks ->
  emits P (send_to_channel w chunks).
Proof.
  intros Hget Hchunks. unfold send_to_channel.
  apply emits_try_except; [|emits_tac].
  apply emits_bind; [by apply emits_call|].
  intros [|] _; [|emits_tac].
  apply emits_for_each. intros chunk Hin. apply emits_call.
  rewrite Forall_forall in Hchunks. by apply Hchunks.
Qed.

Lemma emits_send_to_telegram (P : event -> Prop) (announcement : str) :
  (forall name, P (EvPluginEnabled name)) ->
  (forall name, P (EvPluginSettings name)) ->
  (forall url, P (EvPost url (telegram_text announcement))) ->
  emits P (send_to_telegram w announcement).
Proof.
  intros Hen Hset Hpost. unfold send_to_telegram.
  apply emits_bind; [by apply emits_call|].
  intros [|] _; [|emits_tac].
  apply emits_bind; [by apply emits_call|].
  intros settings _. destruct (_ && _); [|emits_tac].
  apply emits_try_except; [|emits_tac]. by apply emits_call.
Qed.

Lemma lift_option_returns {A} (o : option A) (a : A) :
  (exists h s, result (lift_option o h s) = Return a) -> o = Some a.
Proof. intros (h & s & Hr). destruct o; cbn in Hr; congruence. Qed.

(** X8: with a chunk length of at least one, no message that
    [process_entry] sends to the Discord channel is longer than
    [max_response_length]. *)
Theorem channel_messages_within_limit (feed_title : str) (e : entry)
    (h : trace) (s : gmap str Z) :
  1 <= max_response_length ->
  Forall (fun chunk => Z.of_nat (length chunk) <= max_response_length)
    (sent (events (process_entry w max_response_length feed_title e h s))).
Proof.
  intros Hn.
  assert (emits (send_within max_response_length)
            (process_entry w max_response_length feed_title e)) as Hemits.
  { unfold process_entry.
    apply emits_bind; [by apply emits_call|]. intros _ _.
    apply emits_bind; [by apply emits_announcement_of|]. intros a _.
    apply emits_bind; [apply emits_lift_option|]. intros chunks Hchunks.
    apply lift_option_returns in Hchunks.
    apply emits_bind; [|intros _ _; by apply emits_send_to_telegram].
    apply emits_send_to_channel; [done|].
    destruct (split_loop_spec max_response_length Hn (S (length a)) [] a)
      as (chunks' & Hrun & _ & Hall & _); [lia|].
    unfold split_message in Hchunks. rewrite Hrun in Hchunks.
    by injection Hchunks as <-. }
  specialize (Hemits h s).
  induction Hemits as [|ev t Hev Ht IH]; [constructor|].
  destruct ev; cbn [sent]; try done. by constructor.
Qed.

End EntryDelivery.

Lemma channel_messages_within_limit_witness :
  Forall (fun chunk => Z.of_nat (length chunk) <= 40)
    (sent (events (process_entry calm_world 40 (lit "Feed A")
                     (entry_at 200 "second") [] ∅)))
  /\ length (sent (events (process_entry calm_world 40 (lit "Feed A")
                             (entry_at 200 "second") [] ∅))) = 3%nat.
Proof.
  split.
  - apply (channel_messages_within_limit calm_world 40). lia.
  - vm_compute. reflexivity.
Defined.

Section EntrySinks.

Variable w : world.
Variable max_response_length : Z.

(** The calls of [process_entry], part by part. *)
Lemma process_entry_events (feed_title : str) (e : entry) h s :
  let ra := announcement_of w feed_title e (h ++ [EvProcess feed_title e]) s in
  match result ra with
  | Return a =>
      match split_message a max_response_length with
      | Some chunks =>
          exists hc sc ht st,
            events (process_entry w max_response_length feed_title e h s)
            = [EvProcess feed_title e] ++ events ra
              ++ events (send_to_channel w chunks hc sc)
              ++ match result (send_to_channel w chunks hc sc) with
                 | Return _ => events (send_to_telegram w a ht st)
                 | _ => []
                 end
      | None =>
          events (process_entry w max_response_length feed_title e h s)
          = [EvProcess feed_title e] ++ events ra
      end
  | _ =>
      events (process_entry w max_response_length feed_title e h s)
      = [EvProcess feed_title e] ++ events ra
  end.
Proof.
  cbv zeta. unfold process_entry. rewrite bind_run.
  cbn [call events result store_after]. rewrite bind_run.
  destruct (announcement_of w feed_title e (h ++ [EvProcess feed_title e]) s)
    as [ev st [a|err|]]; cbn [events result store_after]; [|done..].
  rewrite bind_run.
  destruct (split_message a max_response_length) as [chunks|];
    cbn [lift_option events result store_after]; [|by rewrite app_nil_r].
  rewrite bind_run.
  match goal with |- context [send_to_channel w chunks ?hc ?sc] =>
    exists hc, sc; destruct (send_to_channel w chunks hc sc) as [ev' st' res']
  end.
  cbn [events result store_after].
  destruct res' as [[]|err|]; cbn [events result store_after].
  - match goal with |- context [send_to_telegram w a ?ht ?st] =>
      exists ht, st end. done.
  - exists [], ∅. by rewrite app_nil_r.
  - exists [], ∅. by rewrite app_nil_r.
Qed.

Lemma posted_send_to_telegram (announcement : str) h s :
  posted (events (send_to_telegram w announcement h s)) = []
  \/ posted (events (send_to_telegram w announcement h s))
     = [telegram_text announcement].
Proof.
  unfold send_to_telegram. run_unfold.
  destruct (get_plugin_enabled w h _) as [[|]|err|];
    cbn [events result store_after posted app]; auto.
  destruct (get_plugin_settings w _ _) as [st|err|];
    cbn [events result store_after posted app]; auto.
  destruct (_ && _); cbn [events result store_after posted app]; auto.
  destruct (requests_post w _ _ _) as [[]|err|];
    cbn [events result store_after posted app]; auto.
Qed.

Lemma posted_send_to_telegram_off (announcement : str) h s :
  (forall h', get_plugin_enabled w h' (lit "telegram_notifier") = Return false)
  \/ (forall h' settings,
        get_plugin_settings w h' (lit "Telegram") = Return settings ->
        is_truthy (telegram_bot_token settings)
        && is_truthy (telegram_chat_id settings) = false) ->
  posted (events (send_to_telegram w announcement h s)) = [].
Proof.
  intros Hoff. unfold send_to_telegram. run_unfold.
  destruct (get_plugin_enabled w h _) as [[|]|err|] eqn:Hen;
    cbn [events result store_after posted app]; auto.
  destruct Hoff as [Hoff|Hoff]; [rewrite Hoff in Hen; discriminate|].
  destruct (get_plugin_settings w _ _) as [st|err|] eqn:Hst;
    cbn [events result store_after posted app]; auto.
  rewrite (Hoff _ _ Hst). done.
Qed.

Lemma sent_send_to_channel_off (chunks : list str) h s :
  (forall h', bot_get_channel w h' = Return false) ->
  sent (events (send_to_channel w chunks h s)) = [].
Proof.
  intros Hoff. unfold send_to_channel. run_unfold. rewrite Hoff. done.
Qed.

(** X9: per entry, Telegram gets at most one post, and its text is the
    conversion of the whole announcement; a sink that is not configured is
    passed over in silence: nothing is posted when the plugin is switched
    off or its token or chat id is missing or empty, and nothing is sent to
    Discord when the bot does not find the channel. *)
Theorem unconfigured_sinks_are_skipped (feed_title : str) (e : entry)
    (h : trace) (s : gmap str Z) :
  let r := process_entry w max_response_length feed_title e h s in
  (posted (events r) = []
   \/ exists a,
        result (announcement_of w feed_title e (h ++ [EvProcess feed_title e]) s)
        = Return a
        /\ posted (events r) = [telegram_text a])
  /\ ((forall h', get_plugin_enabled w h' (lit "telegram_notifier") = Return false)
      \/ (forall h' settings,
            get_plugin_settings w h' (lit "Telegram") = Return settings ->
            is_truthy (telegram_bot_token settings)
            && is_truthy (telegram_chat_id settings) = false) ->
      posted (events r) = [])
  /\ ((forall h', bot_get_channel w h' = Return false) ->
      sent (events r) = []).
Proof.
  cbv zeta.
  pose proof (process_entry_events feed_title e h s) as Hshape.
  cbv zeta in Hshape.
  pose proof (emits_announcement_of w not_post feed_title e
                ltac:(done) ltac:(done) (h ++ [EvProcess feed_title e]) s) as Hap.
  pose proof (emits_announcement_of w not_send feed_title e
                ltac:(done) ltac:(done) (h ++ [EvProcess feed_title e]) s) as Has.
  apply emits_not_post_posted in Hap. apply emits_not_send_sent in Has.
  destruct (result (announcement_of w feed_title e _ s)) as [a|err|] eqn:Hra;
    [|rewrite Hshape, posted_app, sent_app, Hap, Has; by auto..].
  destruct (split_message a max_response_length) as [chunks|];
    [|rewrite Hshape, posted_app, sent_app, Hap, Has; by auto].
  destruct Hshape as (hc & sc & ht & st & ->).
  rewrite !posted_app, !sent_app, Hap, Has. cbn [posted sent app].
  pose proof (emits_send_to_channel w not_post chunks ltac:(done)
                ltac:(by apply Forall_true) hc sc) as Hcp.
  apply emits_not_post_posted in Hcp. rewrite Hcp. cbn [app].
  pose proof (emits_send_to_telegram w not_send a ltac:(done) ltac:(done)
                ltac:(done) ht st) as Hts.
  apply emits_not_send_sent in Hts.
  split; [|split].
  - destruct (result (send_to_channel w chunks hc sc)); [|by left..].
    destruct (posted_send_to_telegram a ht st) as [->| ->]; [by left|].
    right. by exists a.
  - intros Hoff. destruct (result (send_to_channel w chunks hc sc)); [|done..].
    by apply posted_send_to_telegram_off.
  - intros Hoff. rewrite (sent_send_to_channel_off chunks hc sc Hoff).
    destruct (result (send_to_channel w chunks hc sc)); [|done..].
    by rewrite Hts.
Qed.

End EntrySinks.

Lemma unconfigured_sinks_are_skipped_witness :
  posted (events (process_entry no_sinks_world 1500 (lit "Feed A")
                    (entry_at 200 "second") [] ∅)) = []
  /\ sent (events (process_entry no_sinks_world 1500 (lit "Feed A")
                     (entry_at 200 "second") [] ∅)) = []
  /\ result (process_entry no_sinks_world 1500 (lit "Feed A")
               (entry_at 200 "second") [] ∅) = Return tt.
Proof.
  destruct (unconfigured_sinks_are_skipped no_sinks_world 1500 (lit "Feed A")
              (entry_at 200 "second") [] ∅) as (_ & Hpost & Hsend).
  split; [apply Hpost; left; reflexivity|].
  split; [apply Hsend; reflexivity | vm_compute; reflexivity].
Defined.

(** ** More on [split_message] *)

Lemma filter_all_space (s : str) : all_space s -> List.filter not_space s = [].
Proof.
  induction 1 as [|c s Hc Hs IH]; [done|].
  cbn [List.filter]. unfold not_space at 1. by rewrite Hc.
Qed.

Lemma all_space_no_space (s : str) :
  all_space s -> Forall (fun c => is_space c = false) s -> s = [].
Proof.
  intros Hs Hn. destruct s as [|c s]; [done|].
  apply Forall_cons in Hs as [Hc _]. apply Forall_cons in Hn as [Hc' _].
  congruence.
Qed.

Lemma rebuilds_trim_keeps_text (text : str) (chunks : list str) :
  rebuilds_trim text chunks ->
  List.filter not_space (concat chunks) = List.filter not_space text
  /\ (length (concat chunks) <= length text)%nat
  /\ (Forall (fun c => is_space c = false) text -> concat chunks = text).
Proof.
  induction 1 as [text|text chunk lw rest tw chunks -> Hlw Htw Hrest (IH1 & IH2 & IH3)].
  - cbn. rewrite app_nil_r. done.
  - cbn [concat]. rewrite !List.filter_app, IH1.
    rewrite (filter_all_space lw Hlw), (filter_all_space tw Htw), app_nil_r.
    split; [done|]. split.
    + rewrite !length_app. lia.
    + intros Hno. apply Forall_app in Hno as [_ Hno].
      apply Forall_app in Hno as [Hno1 Hno].
      apply Forall_app in Hno as [Hno2 Hno3].
      rewrite (all_space_no_space lw Hlw Hno1), (all_space_no_space tw Htw Hno3).
      rewrite IH3 by done. by rewrite app_nil_r.
Qed.

(** X10: for a chunk size of at least one, [split_message] loses white
    space only: the characters of the chunks that are not white space are
    those of the text, in the same order; the chunks together are never
    longer than the text; and a text without white space is the
    concatenation of its chunks. *)
Theorem split_message_keeps_text (text : str) (n : Z) :
  1 <= n ->
  exists chunks,
    split_message text n = Some chunks
    /\ List.filter not_space (concat chunks) = List.filter not_space text
    /\ (length (concat chunks) <= length text)%nat
    /\ (Forall (fun c => is_space c = false) text -> concat chunks = text).
Proof.
  intros Hn.
  destruct (split_loop_spec n Hn (S (length text)) [] text)
    as (chunks & Hrun & _ & _ & Hreb & _); [lia|].
  exists chunks. split; [done|]. by apply rebuilds_trim_keeps_text.
Qed.

Lemma split_message_keeps_text_witness :
  exists chunks,
    split_message (lit "abcdefgh") 3 = Some chunks
    /\ concat chunks = lit "abcdefgh".
Proof.
  destruct (split_message_keeps_text (lit "abcdefgh") 3) as (chunks & Hrun & _ & _ & Hcat);
    [lia|].
  exists chunks. split; [exact Hrun|]. apply Hcat.
  apply (bool_decide_unpack _). vm_compute. exact I.
Defined.

Lemma lstrip_head (s : str) : lstrip s = [] \/ starts_with_text (lstrip s).
Proof.
  induction s as [|c s IH]; [by left|]. simpl.
  destruct (is_space c) eqn:Hc; [done | by right].
Qed.

Lemma strip_head (s : str) : strip s = [] \/ starts_with_text (strip s).
Proof.
  unfold strip.
  destruct (rstrip_split (lstrip s)) as (tw & Heq & _).
  destruct (rstrip (lstrip s)) as [|x r]; [by left|]. right.
  destruct (lstrip_head s) as [Hnil|Hhead]; [by rewrite Hnil in Heq|].
  rewrite Heq in Hhead. done.
Qed.

Section LaterChunks.

Variable chunk_size : Z.
Hypothesis chunk_size_pos : 1 <= chunk_size.

(** The loop on a remainder that [strip] has produced. *)
Lemma split_loop_trimmed (fuel : nat) :
  forall (parts : list str) (s : str),
    s = [] \/ starts_with_text s ->
    (length s < fuel)%nat ->
    exists chunks,
      split_loop fuel parts s chunk_size = Some (parts ++ chunks)
      /\ forall i c, chunks !! i = Some c ->
           starts_with_text c \/ (c = [] /\ S i = length chunks).
Proof.
  induction fuel as [|fuel IH]; intros parts s Hs Hfuel; [lia|].
  simpl. destruct (Z.gtb_spec (Z.of_nat (length s)) chunk_size) as [Hgt|Hle].
  - pose proof (remainder_shorter chunk_size chunk_size_pos s Hgt) as Hshort.
    destruct (split_point_spec chunk_size chunk_size_pos s Hgt) as [Hsp Hzero].
    destruct (IH (parts ++ [slice_to s (split_point s chunk_size)])
                 (strip (slice_from s (split_point s chunk_size))))
      as (chunks & Hrun & Hall); [apply strip_head | lia |].
    exists (slice_to s (split_point s chunk_size) :: chunks).
    split; [by rewrite Hrun, <- app_assoc|].
    intros [|i] c Hc; cbn in Hc.
    + injection Hc as <-. left.
      destruct Hs as [->|Hs]; [simpl in Hgt; lia|].
      destruct s as [|x s']; [done|].
      assert (split_point (x :: s') chunk_size ≠ 0) as Hne.
      { intros H0. destruct (Hzero H0) as (c' & s'' & [= <- <-] & Hc').
        simpl in Hs. congruence. }
      rewrite slice_to_take by lia.
      destruct (Z.to_nat (split_point (x :: s') chunk_size)) eqn:Hk; [lia|].
      done.
    + destruct (Hall i c Hc) as [Hst|[-> Hlast]]; [by left|].
      right. split; [done|]. cbn [length]. lia.
  - exists [s]. split; [done|]. intros [|i] c Hc; [|done].
    injection Hc as <-. destruct Hs as [->|Hs]; [by right | by left].
Qed.

End LaterChunks.

(** X11: for a chunk size of at least one, every chunk after the first
    begins with a character that is not white space, except that the last
    chunk may be empty. *)
Theorem later_chunks_start_with_text (text : str) (n : Z) (chunks : list str)
    (i : nat) (c : str) :
  1 <= n ->
  split_message text n = Some chunks ->
  chunks !! S i = Some c ->
  starts_with_text c \/ (c = [] /\ S (S i) = length chunks).
Proof.
  intros Hn. unfold split_message. cbn [split_loop].
  destruct (Z.gtb_spec (Z.of_nat (length text)) n) as [Hgt|Hle];
    [|by intros [= <-]].
  pose proof (remainder_shorter n Hn text Hgt) as Hshort.
  destruct (split_loop_trimmed n Hn (length text)
              ([] ++ [slice_to text (split_point text n)])
              (strip (slice_from text (split_point text n)))
              (strip_head _) Hshort) as (rest & -> & Hall).
  intros [= <-]. cbn. intros Hc.
  destruct (Hall i c Hc) as [Hst|[-> Hlast]]; [by left|].
  right. split; [done | lia].
Qed.

Lemma later_chunks_start_with_text_witness :
  starts_with_text (lit "two")
  \/ (lit "two" = [] /\ 2%nat = length [lit "one"; lit "two"; lit "three"; lit "four"]).
Proof.
  apply (later_chunks_start_with_text (lit "one two three four") 5
           [lit "one"; lit "two"; lit "three"; lit "four"] 0 (lit "two"));
    [lia | reflexivity | reflexivity].
Defined.

(** An empty last chunk does occur. *)
Example split_message_empty_last_chunk :
  split_message (lit "abc   ") 3 = Some [lit "abc"; []].
Proof. reflexivity. Qed.

(** ** [safe_send] of the web search plugin *)

(** X12: no message that [safe_send] sends is longer than 2000 characters,
    and a content of at most 2000 characters goes out in one piece,
    unchanged. *)
Theorem safe_send_within_discord_limit (w : world) (content : str)
    (h : trace) (s : gmap str Z) :
  Forall (fun chunk => Z.of_nat (length chunk) <= 2000)
    (sent (events (safe_send w content h s)))
  /\ (Z.of_nat (length content) <= 2000 ->
      sent (events (safe_send w content h s)) = [content]).
Proof.
  unfold safe_send.
  destruct (Z.leb_spec (Z.of_nat (length content)) 2000) as [Hle|Hgt].
  - cbn. split; [by repeat constructor | done].
  - split; [|lia].
    assert (emits (send_within 2000)
              (chunks ← lift_option (split_message content 1900);
               for_each chunks
                 (fun chunk => call (EvSend chunk) (fun h => channel_send w h chunk))))
      as Hemits.
    { apply emits_bind; [apply emits_lift_option|]. intros chunks Hchunks.
      apply lift_option_returns in Hchunks.
      destruct (split_loop_spec 1900 ltac:(lia) (S (length content)) [] content)
        as (chunks' & Hrun & _ & Hall & _); [lia|].
      unfold split_message in Hchunks. rewrite Hrun in Hchunks.
      injection Hchunks as <-.
      apply emits_for_each. intros chunk Hin. apply emits_call.
      rewrite Forall_forall in Hall. specialize (Hall chunk Hin). simpl. lia. }
    specialize (Hemits h s).
    induction Hemits as [|ev t Hev Ht IH]; [constructor|].
    destruct ev; cbn [sent]; try done. by constructor.
Qed.

(** ** [extract_json] of the web search plugin *)

Lemma first_index_Some (c : N) (s : str) (i : nat) :
  first_index c s = Some i ->
  s !! i = Some c /\ c ∉ take i s.
Proof.
  revert i. induction s as [|x s IH]; intros i; simpl; [done|].
  destruct (N.eqb_spec x c) as [->|Hne].
  - intros [= <-]. split; [done|]. apply not_elem_of_nil.
  - destruct (first_index c s) as [j|]; [|done]. intros [= <-].
    destruct (IH j eq_refl) as [Hj Hnot]. split; [done|].
    cbn. rewrite not_elem_of_cons. split; [congruence | done].
Qed.

Lemma first_index_None (c : N) (s : str) : first_index c s = None -> c ∉ s.
Proof.
  induction s as [|x s IH]; simpl; [intros _; apply not_elem_of_nil|].
  destruct (N.eqb_spec x c) as [->|Hne]; [done|].
  destruct (first_index c s); [done|]. intros _.
  rewrite not_elem_of_cons. split; [congruence | by apply IH].
Qed.

Lemma last_index_None (c : N) (s : str) : last_index c s = None -> c ∉ s.
Proof.
  induction s as [|x s IH]; simpl; [intros _; apply not_elem_of_nil|].
  destruct (last_index c s); [done|].
  destruct (N.eqb_spec x c) as [->|Hne]; [done|]. intros _.
  rewrite not_elem_of_cons. split; [congruence | by apply IH].
Qed.

Lemma last_index_after (c : N) (s : str) (k : nat) :
  last_index c s = Some k -> c ∉ drop (S k) s.
Proof.
  revert k. induction s as [|x s IH]; intros k; simpl; [done|].
  destruct (last_index c s) as [j|] eqn:Hj.
  - intros [= <-]. by apply IH.
  - destruct (N.eqb_spec x c) as [->|Hne]; [|done]. intros [= <-].
    rewrite drop_0. by apply last_index_None.
Qed.

Lemma last_index_take (c : N) (s : str) (k : nat) :
  last_index c s = Some k -> last_index c (take (S k) s) = Some k.
Proof.
  revert k. induction s as [|x s IH]; intros k; simpl; [done|].
  destruct (last_index c s) as [j|] eqn:Hj.
  - intros [= <-]. cbn [take last_index]. fold (take (S j) s).
    by rewrite (IH j eq_refl).
  - destruct (N.eqb_spec x c) as [->|Hne]; [|done]. intros [= <-].
    cbn [take last_index]. by rewrite take_0.
Qed.

(** X13: what [extract_json] returns is a piece of the text that begins with
    the first opening brace of the text and ends with its last closing
    brace, and extracting again from it gives it back; it returns nothing
    exactly when no opening brace is followed by a closing brace. *)
Theorem extract_json_spec (text : str) :
  match extract_json text with
  | Some json =>
      exists before after rest,
        text = before ++ json ++ after
        /\ (LBRACE ∉ before)
        /\ (RBRACE ∉ after)
        /\ json = [LBRACE] ++ rest ++ [RBRACE]
        /\ extract_json json = Some json
  | None =>
      forall i j, (i < j)%nat ->
        text !! i = Some LBRACE -> text !! j = Some RBRACE -> False
  end.
Proof.
  unfold extract_json at 1.
  destruct (first_index LBRACE text) as [i|] eqn:Hi.
  - destruct (first_index_Some _ _ _ Hi) as [Hopen Hbefore].
    destruct (last_index RBRACE (drop (S i) text)) as [k|] eqn:Hk.
    + pose proof (last_index_Some _ _ _ Hk) as Hclose.
      pose proof (last_index_after _ _ _ Hk) as Hafter.
      pose proof (last_index_lt _ _ _ Hk) as Hlt.
      rewrite length_drop in Hlt.
      exists (take i text), (drop (S (S k)) (drop i text)),
             (take k (drop (S i) text)).
      split; [by rewrite take_drop, take_drop|].
      split; [done|].
      split.
      { rewrite drop_drop in Hafter |- *.
        by replace (i + S (S k))%nat with (S i + S k)%nat by lia. }
      assert (take (S (S k)) (drop i text)
              = [LBRACE] ++ take k (drop (S i) text) ++ [RBRACE]) as Hjson.
      { rewrite (drop_S _ _ _ Hopen). cbn [take app]. f_equal.
        by apply take_S_r. }
      split; [done|].
      rewrite Hjson. unfold extract_json. cbn [first_index app].
      rewrite N.eqb_refl. cbn [drop]. rewrite !drop_0.
      assert (last_index RBRACE (take k (drop (S i) text) ++ [RBRACE]) = Some k)
        as Hlast.
      { rewrite <- (take_S_r _ _ _ Hclose). by apply last_index_take. }
      rewrite Hlast.
      rewrite take_ge; [done|].
      cbn [length]. rewrite length_app, length_take, length_drop. cbn. lia.
    + intros a b Hab Ha Hb.
      assert (i <= a)%nat as Hia.
      { destruct (decide (i <= a)%nat); [done|]. exfalso. apply Hbefore.
        apply list_elem_of_lookup. exists a. rewrite lookup_take_lt by lia. done. }
      apply last_index_None in Hk. apply Hk.
      apply list_elem_of_lookup. exists (b - S i)%nat.
      rewrite lookup_drop. by replace (S i + (b - S i))%nat with b by lia.
  - intros a b Hab Ha Hb. apply first_index_None in Hi. apply Hi.
    by eapply list_elem_of_lookup_2.
Qed.

Example extract_json_in_prose :
  extract_json (lit "Sure! {a: {b: 1}} and } more")
  = Some (lit "{a: {b: 1}} and }").
Proof. reflexivity. Qed.

(** ** The page extractors *)

(** X14: both extractors make one GET and let no exception out; they return
    a text only for a response with status 200, and the text of the web
    search plugin has at most 3000 words. *)
Theorem extractors_contain_failures (w : world) (url : str) (h : trace)
    (s : gmap str Z) :
  let r1 := fetch_web_summary w url h s in
  let r2 := web_search_fetch_web_summary w url h s in
  events r1 = [EvGet url] /\ events r2 = [EvGet url]
  /\ (forall e, result r1 ≠ Raise e) /\ (forall e, result r2 ≠ Raise e)
  /\ (forall text,
        result r1 = Return (Some text) \/ result r2 = Return (Some text) ->
        exists response,
          requests_get w h url = Return response /\ status_code response = 200)
  /\ (forall text,
        result r2 = Return (Some text) ->
        (length (split_ws text) <= 3000)%nat).
Proof.
  cbv zeta. unfold fetch_web_summary, web_search_fetch_web_summary. run_unfold.
  destruct (requests_get w h url) as [resp|err|];
    cbn [events result store_after app].
  - destruct (Z.eqb_spec (status_code resp) 200) as [H200|Hne];
      cbn [negb events result store_after app].
    + repeat split; try done; [eauto|].
      intros text [= Htext]. by apply web_search_article_text_capped in Htext.
    + repeat split; try done. by intros text [[=]|[=]].
  - repeat split; try done. by intros text [[=]|[=]].
  - repeat split; try done. by intros text [[=]|[=]].
Qed.

Lemma extractors_contain_failures_witness :
  (length (split_ws (lit "Story")) <= 3000)%nat.
Proof.
  destruct (extractors_contain_failures calm_world (lit "x") [] ∅)
    as (_ & _ & _ & _ & _ & Hcap).
  apply Hcap. vm_compute. reflexivity.
Defined.

(** ** Cleaned lines *)

Lemma after_break_suffix (c : N) (s : str) : after_break c s `suffix_of` s.
Proof.
  unfold after_break.
  repeat match goal with
         | |- context [match ?x with _ => _ end] => destruct x
         end;
    try done; by apply suffix_cons_r.
Qed.

Lemma splitlines_aux_cons (cur : str) (c : N) (s : str) :
  splitlines_aux cur (c :: s) =
    if is_linebreak c then cur :: splitlines_aux [] (after_break c s)
    else splitlines_aux (cur ++ [c]) s.
Proof.
  cbn [splitlines_aux]. destruct (is_linebreak c); [|done].
  unfold after_break.
  repeat match goal with
         | |- context [match ?x with _ => _ end] => destruct x
         end;
    reflexivity.
Qed.

Lemma splitlines_aux_pieces (n : nat) :
  forall (s cur : str),
    (length s <= n)%nat ->
    Forall no_break cur ->
    Forall (Forall no_break) (splitlines_aux cur s).
Proof.
  induction n as [|n IH]; intros s cur Hn Hcur.
  - destruct s; [|simpl in Hn; lia]. cbn [splitlines_aux].
    destruct cur as [|x cur]; [by apply Forall_nil|].
    apply Forall_cons. split; [done | by apply Forall_nil].
  - destruct s as [|c s].
    { cbn [splitlines_aux]. destruct cur as [|x cur]; [by apply Forall_nil|].
      apply Forall_cons. split; [done | by apply Forall_nil]. }
    rewrite splitlines_aux_cons. simpl in Hn.
    destruct (is_linebreak c) eqn:Hc.
    + apply Forall_cons. split; [done|]. apply IH; [|by apply Forall_nil].
      pose proof (after_break_suffix c s) as [k Hk].
      apply (f_equal length) in Hk. rewrite length_app in Hk. lia.
    + apply IH; [lia|]. apply Forall_app. split; [done|].
      apply Forall_cons. split; [done | by apply Forall_nil].
Qed.

Lemma splitlines_pieces (s : str) : Forall (Forall no_break) (splitlines s).
Proof. apply (splitlines_aux_pieces (length s)); [lia | by apply Forall_nil]. Qed.

Lemma splitlines_aux_app (l : str) :
  Forall no_break l ->
  forall cur s, splitlines_aux cur (l ++ s) = splitlines_aux (cur ++ l) s.
Proof.
  induction 1 as [|c l Hc Hl IH]; intros cur s.
  - by rewrite app_nil_r.
  - cbn [app]. rewrite splitlines_aux_cons, Hc, IH. by rewrite <- app_assoc.
Qed.

Lemma splitlines_aux_line_feed (cur s : str) :
  splitlines_aux cur ([NL] ++ s) = cur :: splitlines_aux [] s.
Proof. cbn [app]. by rewrite splitlines_aux_cons. Qed.

(** Lines joined by line feeds split into the same lines again. *)
Lemma splitlines_join (lines : list str) :
  Forall (fun l => l ≠ [] /\ Forall no_break l) lines ->
  splitlines (join [NL] lines) = lines.
Proof.
  unfold splitlines. induction 1 as [|l lines [Hne Hl] Hlines IH]; [done|].
  destruct lines as [|l' lines]; [cbn [join]|rewrite join_cons].
  - rewrite <- (app_nil_r l) at 1. rewrite splitlines_aux_app by done.
    simpl. by destruct l.
  - rewrite splitlines_aux_app, app_nil_l by done.
    rewrite splitlines_aux_line_feed. f_equal. exact IH.
Qed.

Lemma lstrip_idem (s : str) : lstrip (lstrip s) = lstrip s.
Proof.
  induction s as [|c s IH]; [done|]. simpl.
  destruct (is_space c) eqn:Hc; [done|]. simpl. by rewrite Hc.
Qed.

Lemma lstrip_text (s : str) : s = [] \/ starts_with_text s -> lstrip s = s.
Proof.
  intros [->|Hs]; [done|]. destruct s as [|c s]; [done|].
  simpl in *. by rewrite Hs.
Qed.

Lemma rstrip_idem (s : str) : rstrip (rstrip s) = rstrip s.
Proof. unfold rstrip. by rewrite reverse_involutive, lstrip_idem. Qed.

Lemma strip_idem (s : str) : strip (strip s) = strip s.
Proof.
  unfold strip at 1. rewrite (lstrip_text (strip s)) by apply strip_head.
  unfold strip. apply rstrip_idem.
Qed.

Lemma strip_Forall (P : N -> Prop) (s : str) : Forall P s -> Forall P (strip s).
Proof.
  intros Hs. destruct (strip_split s) as (lw & tw & Heq & _).
  rewrite Heq in Hs. apply Forall_app in Hs as [_ Hs].
  by apply Forall_app in Hs as [Hs _].
Qed.

(** What [clean_lines] keeps of the lines of a text. *)
Lemma cleaned_lines_spec (raw : list str) :
  Forall (Forall no_break) raw ->
  Forall (fun l => (l ≠ [] /\ Forall no_break l) /\ strip l = l)
    (omap (fun line => match strip line with [] => None | l => Some l end) raw).
Proof.
  induction 1 as [|line raw Hline Hraw IH]; [constructor|].
  cbn [omap list_omap]. destruct (strip line) as [|c l] eqn:Hstrip; [done|].
  constructor; [|done]. rewrite <- Hstrip.
  split; [split; [by rewrite Hstrip | by apply strip_Forall]|].
  apply strip_idem.
Qed.

Lemma omap_cleaned_id (lines : list str) :
  Forall (fun l => l ≠ [] /\ strip l = l) lines ->
  omap (fun line => match strip line with [] => None | l => Some l end) lines
  = lines.
Proof.
  induction 1 as [|l lines [Hne Hl] Hlines IH]; [done|].
  cbn [omap list_omap]. rewrite Hl. destruct l; [done|]. f_equal. exact IH.
Qed.

(** X15: the text [clean_lines] returns (the article text of both
    extractors is built by it) consists of lines none of which is empty or
    has white space at either end, and cleaning it again gives the same
    text. *)
Theorem clean_lines_normal_form (text : str) :
  Forall (fun l => l ≠ [] /\ strip l = l) (splitlines (clean_lines text))
  /\ clean_lines (clean_lines text) = clean_lines text
  /\ forall page : node,
       clean_lines (rss_article_text page) = rss_article_text page
       /\ Forall (fun l => l ≠ [] /\ strip l = l)
            (splitlines (rss_article_text page)).
Proof.
  revert text.
  assert (forall text,
    Forall (fun l => l ≠ [] /\ strip l = l) (splitlines (clean_lines text))
    /\ clean_lines (clean_lines text) = clean_lines text) as Hall;
    [|intros text; destruct (Hall text) as [H1 H2];
      split; [done|]; split; [done|]; intros page; unfold rss_article_text;
      destruct (Hall (get_text [NL] (decompose_all unwanted page))); done].
  intros text.
  pose proof (cleaned_lines_spec (splitlines text) (splitlines_pieces text))
    as Hlines.
  assert (splitlines (clean_lines text)
          = omap (fun line => match strip line with [] => None | l => Some l end)
              (splitlines text)) as Hsplit.
  { unfold clean_lines. apply splitlines_join.
    eapply Forall_impl; [exact Hlines|]. by intros l [Hl _]. }
  assert (Forall (fun l => l ≠ [] /\ strip l = l) (splitlines (clean_lines text)))
    as Hnormal.
  { rewrite Hsplit. eapply Forall_impl; [exact Hlines|]. by intros l [[Hl _] Hs]. }
  assert (clean_lines (clean_lines text) = clean_lines text) as Hidem.
  { unfold clean_lines at 1. rewrite (omap_cleaned_id _ Hnormal).
    by rewrite Hsplit. }
  done.
Qed.

Example clean_lines_example :
  clean_lines (lit "  Menu " ++ [13%N; 10%N; NL] ++ lit " " ++ [NL] ++ lit "Story")
  = lit "Menu" ++ [NL] ++ lit "Story".
Proof. reflexivity. Qed.

(** ** The text sent to Telegram *)

Lemma tagged_app (s t : str) : tagged s -> tagged t -> tagged (s ++ t).
Proof.
  induction 1 as [|c s Hl Hg Hs IH|s Hs IH|s Hs IH]; intros Ht; [done|..].
  - cbn [app]. by constructor; [..|apply IH].
  - rewrite <- app_assoc. by apply tagged_open, IH.
  - rewrite <- app_assoc. by apply tagged_close, IH.
Qed.

Lemma tagged_plain (s : str) :
  LT ∉ s -> GT ∉ s -> tagged s.
Proof.
  induction s as [|c s IH]; intros Hl Hg; [constructor|].
  apply not_elem_of_cons in Hl as [Hl Hl'].
  apply not_elem_of_cons in Hg as [Hg Hg'].
  constructor; [congruence | congruence | by apply IH].
Qed.

Lemma starts_with_cons (a : N) (p : str) (b : N) (s : str) :
  starts_with (a :: p) (b :: s) = (a =? b)%N && starts_with p s.
Proof. reflexivity. Qed.

Section ReplaceFacts.

Variables (old new : str).

(** A character that [new] does not have and that is absent from the text,
    or is all of [old], is absent from the result. *)
Lemma replace_fuel_absent (c : N) (fuel : nat) :
  c ∉ new ->
  forall s, c ∉ s -> c ∉ replace_fuel fuel old new s.
Proof.
  intros Hnew. induction fuel as [|fuel IH]; intros s Hs; [done|].
  cbn [replace_fuel]. destruct s as [|x s']; [done|].
  destruct (starts_with old (x :: s')).
  - rewrite not_elem_of_app. split; [done|]. apply IH.
    intros Hin. apply Hs.
    destruct (suffix_drop (x :: s') (length old)) as [k ->].
    apply elem_of_app. by right.
  - apply not_elem_of_cons in Hs as [Hx Hs'].
    rewrite not_elem_of_cons. split; [done | by apply IH].
Qed.

End ReplaceFacts.

Lemma replace_fuel_char_gone (c : N) (new : str) (fuel : nat) :
  c ∉ new ->
  forall s, (length s <= fuel)%nat -> c ∉ replace_fuel fuel [c] new s.
Proof.
  intros Hnew. induction fuel as [|fuel IH]; intros s Hlen.
  - destruct s; [apply not_elem_of_nil | simpl in Hlen; lia].
  - cbn [replace_fuel]. destruct s as [|x s']; [apply not_elem_of_nil|].
    rewrite starts_with_cons. cbn [starts_with length drop].
    rewrite andb_true_r. simpl in Hlen.
    destruct (N.eqb_spec c x) as [->|Hne].
    + rewrite drop_0. rewrite not_elem_of_app. split; [done|]. apply IH. lia.
    + rewrite not_elem_of_cons. split; [done|]. apply IH. lia.
Qed.

(** [html.escape] leaves no angle bracket. *)
Lemma html_escape_plain (s : str) :
  (LT ∉ html_escape s) /\ (GT ∉ html_escape s).
Proof.
  set (s1 := replace (lit "&") (lit "&amp;") s).
  set (s2 := replace_fuel (length s1) [LT] (lit "&lt;") s1).
  change (html_escape s) with (replace_fuel (length s2) [GT] (lit "&gt;") s2).
  assert (LT ∉ s2) as Hlt.
  { apply (replace_fuel_char_gone LT); [|done].
    apply (bool_decide_unpack _). vm_compute. exact I. }
  split.
  - apply replace_fuel_absent; [|done].
    apply (bool_decide_unpack _). vm_compute. exact I.
  - apply (replace_fuel_char_gone GT); [|done].
    apply (bool_decide_unpack _). vm_compute. exact I.
Qed.

Section ReplaceTagged.

(** [old] is made of characters other than angle brackets and begins with a
    character that does not occur in a bold tag. *)
Variables (o : N) (old' new : str).
Hypothesis o_not_lt : o ≠ LT.
Hypothesis o_not_b : o ≠ 98%N.
Hypothesis o_not_gt : o ≠ GT.
Hypothesis o_not_slash : o ≠ 47%N.
Hypothesis old_plain : Forall (fun c => c ≠ LT /\ c ≠ GT) (o :: old').
Hypothesis new_tagged : tagged new.

Lemma tagged_head_plain (c : N) (s : str) :
  c ≠ LT -> tagged (c :: s) -> tagged s.
Proof.
  intros Hc Ht. inversion Ht; subst; [done|by destruct Hc..].
Qed.

Lemma tagged_drop_match (p : str) :
  Forall (fun c => c ≠ LT /\ c ≠ GT) p ->
  forall s, tagged s -> starts_with p s = true -> tagged (drop (length p) s).
Proof.
  induction 1 as [|a p [Ha _] Hp IH]; intros s Hs Hmatch; [done|].
  destruct s as [|x s]; [done|].
  rewrite starts_with_cons in Hmatch.
  apply andb_true_iff in Hmatch as [Hax Hmatch].
  apply N.eqb_eq in Hax as <-.
  cbn [length drop]. apply IH; [|done]. by eapply tagged_head_plain.
Qed.

Lemma starts_with_other (c : N) (s : str) :
  o ≠ c -> starts_with (o :: old') (c :: s) = false.
Proof.
  intros Hne. rewrite starts_with_cons.
  by destruct (N.eqb_spec o c).
Qed.

(** Replacing [old] by a tagged text in a tagged text gives a tagged text. *)
Lemma replace_fuel_tagged (n : nat) :
  forall fuel s, (fuel <= n)%nat -> tagged s ->
    tagged (replace_fuel fuel (o :: old') new s).
Proof.
  induction n as [|n IH]; intros fuel s Hfuel Hs.
  { destruct fuel; [done | lia]. }
  destruct fuel as [|fuel]; [done|].
  cbn [replace_fuel].
  inversion Hs as [|c s' Hl Hg Hs' Heq|s' Hs' Heq|s' Hs' Heq]; subst.
  - constructor.
  - destruct (starts_with (o :: old') (c :: s')) eqn:Hmatch.
    + apply tagged_app; [done|]. apply IH; [lia|].
      by apply tagged_drop_match.
    + constructor; [done..|]. apply IH; [lia | done].
  - cbn [lit app list_ascii_of_string map N_of_ascii] in *.
    change (lit "<b>" ++ s') with (LT :: 98%N :: GT :: s').
    rewrite starts_with_other by done.
    destruct fuel as [|fuel]; [by apply (tagged_open s')|].
    cbn [replace_fuel]. rewrite starts_with_other by done.
    destruct fuel as [|fuel]; [by apply (tagged_open s')|].
    cbn [replace_fuel]. rewrite starts_with_other by done.
    apply (tagged_open (replace_fuel fuel (o :: old') new s')).
    apply IH; [lia | done].
  - change (lit "</b>" ++ s') with (LT :: 47%N :: 98%N :: GT :: s').
    rewrite starts_with_other by done.
    destruct fuel as [|fuel]; [by apply (tagged_close s')|].
    cbn [replace_fuel]. rewrite starts_with_other by done.
    destruct fuel as [|fuel]; [by apply (tagged_close s')|].
    cbn [replace_fuel]. rewrite starts_with_other by done.
    destruct fuel as [|fuel]; [by apply (tagged_close s')|].
    cbn [replace_fuel]. rewrite starts_with_other by done.
    apply (tagged_close (replace_fuel fuel (o :: old') new s')).
    apply IH; [lia | done].
Qed.

End ReplaceTagged.

(** X16: in the text sent to Telegram every angle bracket belongs to a bold
    tag, opening or closing: no other markup of the announcement gets
    through the conversion. *)
Theorem telegram_text_only_bold_tags (announcement : str) :
  tagged (telegram_text announcement).
Proof.
  unfold telegram_text.
  set (escaped := html_escape (bold_sub (length announcement) announcement)).
  set (opened := replace (lit "&lt;b&gt;") (lit "<b>") escaped).
  change (tagged (replace_fuel (length opened) (38%N :: lit "lt;/b&gt;")
                    (lit "</b>") opened)).
  apply (replace_fuel_tagged 38%N (lit "lt;/b&gt;") (lit "</b>"))
    with (n := length opened); try done.
  { apply (bool_decide_unpack _). vm_compute. exact I. }
  { apply (tagged_close []). constructor. }
  subst opened.
  change (tagged (replace_fuel (length escaped) (38%N :: lit "lt;b&gt;")
                    (lit "<b>") escaped)).
  apply (replace_fuel_tagged 38%N (lit "lt;b&gt;") (lit "<b>"))
    with (n := length escaped); try done.
  { apply (bool_decide_unpack _). vm_compute. exact I. }
  { apply (tagged_open []). constructor. }
  destruct (html_escape_plain (bold_sub (length announcement) announcement)).
  by apply tagged_plain.
Qed.

Example telegram_text_escapes_markup :
  telegram_text (lit "**Feed** <i>x</i> & <script>")
  = lit "<b>Feed</b> &lt;i&gt;x&lt;/i&gt; &amp; &lt;script&gt;".
Proof. reflexivity. Qed.

(** ** Removal of unwanted elements *)

(** Induction over a page, with the property known for all children. *)
Lemma node_ind_children (P : node -> Prop) :
  (forall s, P (Text s)) ->
  (forall s, P (Other s)) ->
  (forall name children, Forall P children -> P (Tag name children)) ->
  forall n, P n.
Proof.
  intros Htext Hother Htag. fix IH 1. intros [s|s|name children].
  - apply Htext.
  - apply Hother.
  - apply Htag. induction children as [|c children IHc].
    + by apply Forall_nil.
    + apply Forall_cons. split; [apply IH | exact IHc].
Qed.

Section Decompose.

Variable names : list str.

(** X17: after [decompose_all] no element with one of the names is left
    anywhere in the page, the strings that are left are strings of the page
    in their order, and removing again changes nothing. *)
Theorem decompose_all_removes (page : node) :
  (forall name, name ∈ names -> find name (decompose_all names page) = None)
  /\ all_strings (decompose_all names page) `sublist_of` all_strings page
  /\ decompose_all names (decompose_all names page) = decompose_all names page.
Proof.
  induction page as [s|s|tag children IH] using node_ind_children;
    [done..|].
  cbn [decompose_all find all_strings].
  induction IH as [|c children (Hfind & Hsub & Hidem) _ IHc].
  { done. }
  destruct IHc as (IH1 & IH2 & IH3).
  destruct (is_tag_named names c) eqn:Hc.
  - split; [done|]. split; [|done].
    by apply sublist_inserts_l.
  - split; [|split].
    + intros name Hname. cbn [find] in *.
      destruct c as [s|s|nm ch]; cbn [decompose_all]; [by apply IH1..|].
      cbn [is_tag_named] in Hc. apply bool_decide_eq_false in Hc.
      rewrite bool_decide_eq_false_2 by (intros ->; done).
      specialize (Hfind name Hname). cbn [decompose_all] in Hfind.
      rewrite Hfind. by apply IH1.
    + by apply sublist_app.
    + injection IH3 as IH3. f_equal.
      assert (is_tag_named names (decompose_all names c) = false) as ->.
      { by destruct c. }
      by rewrite Hidem, IH3.
Qed.

End Decompose.

Example decompose_all_example :
  get_text [NL]
    (decompose_all unwanted
       (Tag (lit "[document]")
          [Tag (lit "nav") [Text (lit "Menu")];
           Tag (lit "p") [Text (lit "Story"); Tag (lit "script") [Text (lit "x()")]];
           Tag (lit "footer") [Tag (lit "p") [Text (lit "Imprint")]]]))
  = lit "Story".
Proof. reflexivity. Qed.

(** ** What a pass processes *)

(** X18: a pass over a feed hands to [process_entry] only entries of the
    parsed document, and each of them at most as often as the document
    lists it. *)
Theorem processed_entries_from_feed (w : world) (max_response_length : Z)
    (feed_url : str) (last_ts : Z) (h : trace) (s : gmap str Z) :
  processed (events (poll_feed w max_response_length (feed_url, last_ts) h s))
  ⊆+ feed_entries w h feed_url.
Proof.
  destruct (poll_feed_run w max_response_length (feed_url, last_ts) h s)
    as (_ & Hpre & _).
  cbn [fst snd] in Hpre. destruct Hpre as [k Hk].
  etransitivity;
    [apply sublist_submseteq, (sublist_inserts_r k), reflexivity|].
  rewrite <- Hk. unfold selected. rewrite <- (sorted_perm sort_key (feed_entries w h feed_url)) at 2.
  apply sublist_submseteq.
  induction (sorted (feed_entries w h feed_url) sort_key) as [|e l IH]; [done|].
  cbn [List.filter]. destruct (is_new last_ts e).
  - by apply sublist_skip.
  - by apply sublist_cons.
Qed.

Lemma fetched_app (t1 t2 : trace) : fetched (t1 ++ t2) = fetched t1 ++ fetched t2.
Proof.
  induction t1 as [|ev t1 IH]; [done|]. destruct ev; simpl; by rewrite ?IH.
Qed.

Lemma prompted_app (t1 t2 : trace) :
  prompted (t1 ++ t2) = prompted t1 ++ prompted t2.
Proof.
  induction t1 as [|ev t1 IH]; [done|]. destruct ev; simpl; by rewrite ?IH.
Qed.

Lemma emits_not_get_fetched (t : trace) : Forall not_get t -> fetched t = [].
Proof. induction 1 as [|ev t Hev Ht IH]; [done|]. by destruct ev. Qed.

Lemma emits_not_chat_prompted (t : trace) : Forall not_chat t -> prompted t = [].
Proof. induction 1 as [|ev t Hev Ht IH]; [done|]. by destruct ev. Qed.

Section EntryCost.

Variable w : world.
Variable max_response_length : Z.

Lemma announcement_of_cost (feed_title : str) (e : entry) h s :
  fetched (events (announcement_of w feed_title e h s)) = [default [] (link e)]
  /\ (length (prompted (events (announcement_of w feed_title e h s))) <= 1)%nat.
Proof.
  unfold announcement_of, summary_text_of. rewrite !bind_run.
  pose proof (fetch_web_summary_events w (default [] (link e)) h s) as Hev.
  destruct (fetch_web_summary w (default [] (link e)) h s) as [ev st res].
  cbn [events result store_after] in *. subst ev.
  destruct res as [[[|c text]|]|err|];
    cbn [events result store_after mret M_ret ret app fetched prompted length];
    try (split; [done | lia]).
  rewrite try_except_run, bind_run. cbn [call events result store_after].
  destruct (ollama_chat w _ _) as [[|content]|err|];
    cbn [events result store_after raise mret M_ret ret app fetched prompted length];
    try (split; [done | lia]).
  destruct (strip (default [] content));
    cbn [events result store_after raise mret M_ret ret app fetched prompted length];
    split; (done || lia).
Qed.

(** X19: one call of [process_entry] fetches exactly one page, the link of
    its entry, and calls the language model at most once. *)
Theorem one_fetch_per_entry (feed_title : str) (e : entry) (h : trace)
    (s : gmap str Z) :
  fetched (events (process_entry w max_response_length feed_title e h s))
  = [default [] (link e)]
  /\ (length (prompted (events (process_entry w max_response_length
                                  feed_title e h s))) <= 1)%nat.
Proof.
  pose proof (process_entry_events w max_response_length feed_title e h s)
    as Hshape.
  cbv zeta in Hshape.
  destruct (announcement_of_cost feed_title e (h ++ [EvProcess feed_title e]) s)
    as [Hget Hchat].
  assert (forall chunks hc sc,
    fetched (events (send_to_channel w chunks hc sc)) = []
    /\ prompted (events (send_to_channel w chunks hc sc)) = []) as Hch.
  { intros chunks hc sc. split.
    - apply emits_not_get_fetched.
      by apply emits_send_to_channel; [|apply Forall_true].
    - apply emits_not_chat_prompted.
      by apply emits_send_to_channel; [|apply Forall_true]. }
  assert (forall a ht st,
    fetched (events (send_to_telegram w a ht st)) = []
    /\ prompted (events (send_to_telegram w a ht st)) = []) as Htg.
  { intros a ht st. split.
    - apply emits_not_get_fetched. by apply emits_send_to_telegram.
    - apply emits_not_chat_prompted. by apply emits_send_to_telegram. }
  destruct (result (announcement_of w feed_title e _ s)) as [a|err|];
    [|rewrite Hshape, fetched_app, prompted_app, Hget; by cbn..].
  destruct (split_message a max_response_length) as [chunks|];
    [|rewrite Hshape, fetched_app, prompted_app, Hget; by cbn].
  destruct Hshape as (hc & sc & ht & st & ->).
  rewrite !fetched_app, !prompted_app, Hget.
  destruct (Hch chunks hc sc) as [-> ->].
  destruct (result (send_to_channel w chunks hc sc));
    cbn [fetched prompted app]; rewrite ?app_nil_r;
    try destruct (Htg a ht st) as [-> ->]; rewrite ?app_nil_r; done.
Qed.

End EntryCost.

(** ** The waiting message *)

Lemma bind_returns {A B} (m : M A) (f : A -> M B) h s (b : B) :
  result ((m ≫= f) h s) = Return b ->
  exists a,
    result (m h s) = Return a
    /\ result (f a (h ++ events (m h s)) (store_after (m h s))) = Return b.
Proof.
  rewrite bind_run. destruct (result (m h s)) as [a|e|]; cbn [result]; [|done..].
  intros Hb. by exists a.
Qed.



(** ** The link lists of the Premiumize plugin *)

Module PremiumizeFacts.

Import Premiumize.

Section LinkLists.

Variable quote : str -> str.

Lemma add_link_lines_spec (limit : Z) (files : list file) :
  forall msg,
    exists shown rest,
      files = shown ++ rest
      /\ add_link_lines quote limit msg files
         = msg ++ flat_map (link_line quote) shown
      /\ (Z.of_nat (length msg) <= limit ->
          Z.of_nat (length (add_link_lines quote limit msg files)) <= limit)
      /\ match rest with
         | [] => True
         | f :: _ =>
             limit < Z.of_nat (length (add_link_lines quote limit msg files))
                     + Z.of_nat (length (link_line quote f))
         end.
Proof.
  induction files as [|f files IH]; intros msg.
  - exists [], []. cbn. rewrite app_nil_r. by repeat split.
  - cbn [add_link_lines].
    destruct (Z.gtb_spec
                (Z.of_nat (length msg) + Z.of_nat (length (link_line quote f)))
                limit) as [Hfull|Hfits].
    + exists [], (f :: files). cbn. rewrite app_nil_r. by repeat split.
    + destruct (IH (msg ++ link_line quote f)) as (shown & rest & -> & Heq & Hlen & Hrest).
      exists (f :: shown), rest. split; [done|].
      split; [by rewrite Heq, <- app_assoc|].
      split; [|done]. intros _. apply Hlen. rewrite length_app. lia.
Qed.

(** X21: the loop that builds a list of links, in each of its three places,
    returns the header followed by the lines of the first files in their
    order and stops at the first line that would take the message beyond
    the limit; if the header is within the limit, so is the message.  In
    particular a page of [PaginatedLinks] never exceeds 2000 characters when
    its header does not. *)
Theorem link_list_within_limit (limit : Z) (header : str) (files : list file)
    (v : PaginatedLinks) :
  (exists shown rest,
     files = shown ++ rest
     /\ add_link_lines quote limit header files
        = header ++ flat_map (link_line quote) shown
     /\ match rest with
        | [] => True
        | f :: _ =>
            limit < Z.of_nat (length (add_link_lines quote limit header files))
                    + Z.of_nat (length (link_line quote f))
        end)
  /\ (Z.of_nat (length header) <= limit ->
      Z.of_nat (length (add_link_lines quote limit header files)) <= limit)
  /\ (Z.of_nat (length (page_header v)) <= 2000 ->
      Z.of_nat (length (get_page_content quote v)) <= 2000).
Proof.
  destruct (add_link_lines_spec limit files header)
    as (shown & rest & Hfiles & Heq & Hlen & Hrest).
  split; [by exists shown, rest|]. split; [done|].
  unfold get_page_content.
  by destruct (add_link_lines_spec 2000 (page_links v) (page_header v))
    as (_ & _ & _ & _ & Hpage & _).
Qed.

Lemma init_consistent (the_links : list file) (the_title : str) (size : Z) :
  consistent (init the_links the_title size).
Proof.
  unfold consistent, init, update_buttons. cbn.
  split; [lia|]. split; [by left|]. done.
Qed.

Lemma press_consistent (v : PaginatedLinks) (c : click) :
  1 <= page_size v -> consistent v -> consistent (press quote v c).
Proof.
  intros Hsize (Hpos & Hpage & Hprev & Hnext).
  destruct c; cbn [press]; unfold previous_button, next_button.
  - destruct (Z.gtb_spec (current_page v) 0) as [Hgt|Hle]; cbn [fst];
      [|done].
    unfold consistent, update_buttons, set_page. cbn.
    split; [lia|]. split; [|done].
    destruct Hpage as [Hz|Hlt]; [lia|]. right. nia.
  - destruct (Z.ltb_spec ((current_page v + 1) * page_size v)
                (Z.of_nat (length (links v)))) as [Hlt|Hge]; cbn [fst];
      [|done].
    unfold consistent, update_buttons, set_page. cbn.
    split; [lia|]. split; [by right | done].
Qed.

Lemma press_fields (v : PaginatedLinks) (c : click) :
  links (press quote v c) = links v
  /\ title (press quote v c) = title v
  /\ page_size (press quote v c) = page_size v.
Proof.
  destruct c; cbn [press]; unfold previous_button, next_button.
  - by destruct (current_page v >? 0).
  - by destruct (_ <? _).
Qed.

Lemma after_clicks_consistent (cs : list click) :
  forall v,
    1 <= page_size v -> consistent v ->
    consistent (after_clicks quote v cs)
    /\ links (after_clicks quote v cs) = links v
    /\ page_size (after_clicks quote v cs) = page_size v.
Proof.
  induction cs as [|c cs IH]; intros v Hsize Hv; [done|].
  cbn [after_clicks fold_left].
  destruct (press_fields v c) as (Hl & _ & Hs).
  destruct (IH (press quote v c)) as (H1 & H2 & H3);
    [by rewrite Hs | by apply press_consistent|].
  fold (after_clicks quote (press quote v c) cs).
  split; [done|]. by rewrite H2, H3.
Qed.

Lemma slice_block {A} (l : list A) (k size : Z) :
  0 <= k -> 0 <= size -> k * size <= Z.of_nat (length l) ->
  slice l (k * size) (k * size + size)
  = take (Z.to_nat size) (drop (Z.to_nat (k * size)) l).
Proof.
  intros Hk Hsize Hle. unfold slice, adjust.
  destruct (Z.ltb_spec (k * size) 0); [nia|].
  destruct (Z.ltb_spec (k * size + size) 0); [nia|].
  rewrite (Z.min_l (k * size)) by lia.
  destruct (Z.le_ge_cases (k * size + size) (Z.of_nat (length l))) as [Hin|Hout].
  - rewrite Z.min_l by lia. f_equal. lia.
  - rewrite Z.min_r by lia.
    rewrite (take_ge _ (Z.to_nat size)) by (rewrite length_drop; lia).
    apply take_ge. rewrite length_drop. lia.
Qed.

(** X22: with a page size of at least one, whatever buttons are pressed
    after the view was made, the current page is never negative, the page
    shown is not empty unless there are no links at all, the Previous button
    is disabled exactly on the first page and the Next button exactly on the
    last, and the links are those the view was made with. *)
Theorem pagination_stays_in_range (the_links : list file) (the_title : str)
    (size : Z) (cs : list click) :
  1 <= size ->
  let v := after_clicks quote (init the_links the_title size) cs in
  0 <= current_page v
  /\ links v = the_links
  /\ (the_links ≠ [] -> page_links v ≠ [])
  /\ previous_disabled v = (current_page v =? 0)
  /\ next_disabled v
     = ((current_page v + 1) * size >=? Z.of_nat (length the_links)).
Proof.
  intros Hsize v.
  destruct (after_clicks_consistent cs (init the_links the_title size))
    as ((Hpos & Hpage & Hprev & Hnext) & Hlinks & Hps);
    [done | apply init_consistent|].
  fold v in Hpos, Hpage, Hprev, Hnext, Hlinks, Hps.
  cbn in Hlinks, Hps. rewrite Hlinks, Hps in *.
  split; [done|]. split; [done|]. split; [|done].
  intros Hne. unfold page_links. rewrite Hlinks, Hps.
  assert (current_page v * size < Z.of_nat (length the_links)) as Hlt.
  { destruct Hpage as [->|Hlt]; [|done].
    destruct the_links; [done | simpl; lia]. }
  rewrite slice_block by nia.
  intros Hnil. apply (f_equal length) in Hnil.
  rewrite length_take, length_drop in Hnil. simpl in Hnil. nia.
Qed.

Lemma consistent_eq (v v' : PaginatedLinks) :
  consistent v -> consistent v' ->
  links v = links v' -> title v = title v' -> page_size v = page_size v' ->
  current_page v = current_page v' -> v = v'.
Proof.
  intros (_ & _ & Hp & Hn) (_ & _ & Hp' & Hn') Hl Ht Hs Hc.
  destruct v, v'. cbn in *. subst. done.
Qed.

(** X23: with a page size of at least one, in every view reached by
    pressing buttons a disabled button does nothing when pressed, and
    pressing Next and then Previous, or Previous and then Next, on buttons
    that are enabled brings the view back to where it was. *)
Theorem buttons_undo_each_other (the_links : list file) (the_title : str)
    (size : Z) (cs : list click) :
  1 <= size ->
  let v := after_clicks quote (init the_links the_title size) cs in
  (next_disabled v = true -> next_button quote v = (v, None))
  /\ (previous_disabled v = true -> previous_button quote v = (v, None))
  /\ (next_disabled v = false ->
      (previous_button quote (next_button quote v).1).1 = v)
  /\ (previous_disabled v = false ->
      (next_button quote (previous_button quote v).1).1 = v).
Proof.
  intros Hsize v.
  destruct (after_clicks_consistent cs (init the_links the_title size))
    as (Hv & Hlinks & Hps); [done | apply init_consistent|].
  fold v in Hv, Hlinks, Hps. cbn in Hps.
  assert (1 <= page_size v) as Hsize' by (by rewrite Hps).
  pose proof Hv as (Hpos & Hpage & Hprev & Hnext).
  split; [|split; [|split]].
  - rewrite Hnext. intros Hdis. unfold next_button.
    destruct (Z.ltb_spec ((current_page v + 1) * page_size v)
                (Z.of_nat (length (links v)))); [lia | done].
  - rewrite Hprev. intros Hdis. unfold previous_button.
    destruct (Z.gtb_spec (current_page v) 0); [lia | done].
  - rewrite Hnext. intros Hen.
    pose proof (press_consistent v Next Hsize' Hv) as Hv1.
    pose proof (press_fields v Next) as (Hl1 & Ht1 & Hs1).
    assert (current_page (press quote v Next) = current_page v + 1) as Hc1.
    { cbn [press]. unfold next_button.
      destruct (Z.ltb_spec ((current_page v + 1) * page_size v)
                  (Z.of_nat (length (links v)))); [done | lia]. }
    change (next_button quote v).1 with (press quote v Next).
    change (previous_button quote (press quote v Next)).1
      with (press quote (press quote v Next) Previous).
    pose proof (press_consistent (press quote v Next) Previous
                  ltac:(by rewrite Hs1) Hv1) as Hv2.
    pose proof (press_fields (press quote v Next) Previous) as (Hl2 & Ht2 & Hs2).
    apply consistent_eq; try done; try congruence.
    cbn [press]. unfold previous_button. fold (press quote v Next).
    destruct (Z.gtb_spec (current_page (press quote v Next)) 0); [|lia].
    cbn [fst update_buttons set_page current_page]. lia.
  - rewrite Hprev. intros Hen.
    assert (0 < current_page v) as Hgt by lia.
    pose proof (press_consistent v Previous Hsize' Hv) as Hv1.
    pose proof (press_fields v Previous) as (Hl1 & Ht1 & Hs1).
    assert (current_page (press quote v Previous) = current_page v - 1) as Hc1.
    { cbn [press]. unfold previous_button.
      destruct (Z.gtb_spec (current_page v) 0); [done | lia]. }
    change (previous_button quote v).1 with (press quote v Previous).
    change (next_button quote (press quote v Previous)).1
      with (press quote (press quote v Previous) Next).
    pose proof (press_consistent (press quote v Previous) Next
                  ltac:(by rewrite Hs1) Hv1) as Hv2.
    pose proof (press_fields (press quote v Previous) Next) as (Hl2 & Ht2 & Hs2).
    apply consistent_eq; try done; try congruence.
    cbn [press]. unfold next_button. fold (press quote v Previous).
    rewrite Hc1, Hs1, Hl1.
    destruct Hpage as [Hz|Hlt]; [lia|].
    destruct (Z.ltb_spec ((current_page v - 1 + 1) * page_size v)
                (Z.of_nat (length (links v)))) as [_|Hge];
      [|replace (current_page v - 1 + 1) with (current_page v) in Hge by lia; lia].
    cbn [fst update_buttons set_page current_page]. lia.
Qed.

Lemma next_clicks_page (the_links : list file) (the_title : str) (size : Z)
    (k : nat) :
  1 <= size ->
  Z.of_nat k * size < Z.of_nat (length the_links) ->
  current_page (after_clicks quote (init the_links the_title size)
                  (replicate k Next)) = Z.of_nat k.
Proof.
  intros Hsize. induction k as [|k IH]; intros Hk; [done|].
  replace (S k) with (k + 1)%nat by lia.
  rewrite replicate_add. unfold after_clicks in *. rewrite fold_left_app.
  cbn [replicate fold_left].
  set (v := fold_left (press quote) (replicate k Next)
              (init the_links the_title size)) in *.
  destruct (after_clicks_consistent (replicate k Next)
              (init the_links the_title size))
    as (_ & Hlinks & Hps); [done | apply init_consistent|].
  unfold after_clicks in Hlinks, Hps. fold v in Hlinks, Hps. cbn in Hlinks, Hps.
  cbn [press]. unfold next_button. rewrite Hlinks, Hps, IH by nia.
  destruct (Z.ltb_spec ((Z.of_nat k + 1) * size) (Z.of_nat (length the_links)));
    [cbn; lia | nia].
Qed.

(** X24: with a page size of at least one, every link has its page: link
    number [i] (from 0) is found at position [i mod size] of the page
    reached by pressing Next [i / size] times. *)
Theorem every_link_has_its_page (the_links : list file) (the_title : str)
    (size : Z) (i : nat) (f : file) :
  1 <= size ->
  the_links !! i = Some f ->
  page_links (after_clicks quote (init the_links the_title size)
                (replicate (Z.to_nat (Z.of_nat i / size)) Next))
    !! Z.to_nat (Z.of_nat i mod size) = Some f.
Proof.
  intros Hsize Hi.
  pose proof (lookup_lt_Some _ _ _ Hi) as Hlt.
  set (k := Z.to_nat (Z.of_nat i / size)).
  pose proof (Z.div_mod (Z.of_nat i) size ltac:(lia)) as Hdiv.
  pose proof (Z.mod_pos_bound (Z.of_nat i) size ltac:(lia)) as Hmod.
  assert (0 <= Z.of_nat i / size) as Hq by (apply Z.div_pos; lia).
  assert (Z.of_nat k = Z.of_nat i / size) as Hk by (unfold k; lia).
  assert (Z.of_nat k * size < Z.of_nat (length the_links)) as Hpage by nia.
  pose proof (next_clicks_page the_links the_title size k Hsize Hpage) as Hcp.
  destruct (after_clicks_consistent (replicate k Next)
              (init the_links the_title size))
    as (_ & Hlinks & Hps); [done | apply init_consistent|].
  cbn in Hlinks, Hps.
  unfold page_links. rewrite Hlinks, Hps, Hcp.
  rewrite slice_block by lia.
  rewrite lookup_take_lt by lia. rewrite lookup_drop.
  replace (Z.to_nat (Z.of_nat k * size) + Z.to_nat (Z.of_nat i mod size))%nat
    with i by nia.
  done.
Qed.

End LinkLists.

Lemma link_list_within_limit_witness :
  Z.of_nat (length (get_page_content plain_quote
                      (init sample_files (lit "Links") 10))) <= 2000.
Proof.
  destruct (link_list_within_limit plain_quote 2000 [] []
              (init sample_files (lit "Links") 10)) as (_ & _ & Hpage).
  apply Hpage. vm_compute. discriminate.
Defined.

Lemma pagination_stays_in_range_witness :
  0 <= current_page (after_clicks plain_quote (init sample_files (lit "Links") 10)
                       [Next; Next; Previous; Previous; Previous; Next])
  /\ page_links (after_clicks plain_quote (init sample_files (lit "Links") 10)
                   [Next; Next; Previous; Previous; Previous; Next])
     = [sample_file 10; sample_file 11].
Proof.
  destruct (pagination_stays_in_range plain_quote sample_files (lit "Links") 10
              [Next; Next; Previous; Previous; Previous; Next]) as (Hpos & _);
    [lia|].
  split; [exact Hpos | vm_compute; reflexivity].
Defined.

Lemma buttons_undo_each_other_witness :
  (previous_button plain_quote
     (next_button plain_quote (init sample_files (lit "Links") 10)).1).1
  = init sample_files (lit "Links") 10.
Proof.
  destruct (buttons_undo_each_other plain_quote sample_files (lit "Links") 10 [])
    as (_ & _ & Hundo & _); [lia|].
  apply Hundo. vm_compute. reflexivity.
Defined.

Lemma every_link_has_its_page_witness :
  page_links (after_clicks plain_quote (init sample_files (lit "Links") 10)
                (replicate (Z.to_nat (Z.of_nat 11 / 10)) Next))
    !! Z.to_nat (Z.of_nat 11 mod 10) = Some (sample_file 11).
Proof.
  apply (every_link_has_its_page plain_quote sample_files (lit "Links") 10 11);
    [lia | vm_compute; reflexivity].
Defined.

End PremiumizeFacts.

(** ** The whole announcement reaches Discord *)

Section WholeAnnouncement.

Variable w : world.
Variable max_response_length : Z.

Lemma for_each_send_all (chunks : list str) :
  (forall h c, channel_send w h c = Return tt) ->
  forall h s,
    sent (events (for_each chunks
                    (fun chunk => call (EvSend chunk)
                                    (fun h => channel_send w h chunk)) h s))
    = chunks.
Proof.
  intros Hok. induction chunks as [|c chunks IH]; intros h s; [done|].
  cbn [for_each]. rewrite bind_run. cbn [call events result store_after].
  rewrite Hok. cbn [events sent app]. by rewrite IH.
Qed.

Lemma send_to_channel_all (chunks : list str) h s :
  channel_configured w ->
  (forall h c, channel_send w h c = Return tt) ->
  sent (events (send_to_channel w chunks h s)) = chunks.
Proof.
  intros Hch Hok. unfold send_to_channel.
  rewrite try_except_run, bind_run. cbn [call events result store_after].
  rewrite Hch.
  pose proof (for_each_send_all chunks Hok (h ++ [EvGetChannel]) s) as Hall.
  destruct (for_each chunks _ (h ++ [EvGetChannel]) s) as [ev st res].
  cbn [events result store_after] in *.
  destruct res as [[]|e|]; cbn [events result store_after sent app];
    rewrite ?sent_app, ?Hall; cbn [sent events mret M_ret ret];
    by rewrite ?app_nil_r.
Qed.

(** X25: when the bot finds the channel and Discord accepts every message,
    the messages [process_entry] sends are the chunks [split_message] makes
    of the announcement, all of them and in their order. *)
Theorem channel_gets_whole_announcement (feed_title : str) (e : entry)
    (h : trace) (s : gmap str Z) (announcement : str) (chunks : list str) :
  channel_configured w ->
  (forall h c, channel_send w h c = Return tt) ->
  result (announcement_of w feed_title e (h ++ [EvProcess feed_title e]) s)
  = Return announcement ->
  split_message announcement max_response_length = Some chunks ->
  sent (events (process_entry w max_response_length feed_title e h s)) = chunks.
Proof.
  intros Hch Hok Ha Hsplit.
  pose proof (process_entry_events w max_response_length feed_title e h s)
    as Hshape.
  cbv zeta in Hshape. rewrite Ha, Hsplit in Hshape.
  destruct Hshape as (hc & sc & ht & st & ->).
  pose proof (emits_announcement_of w not_send feed_title e
                ltac:(done) ltac:(done) (h ++ [EvProcess feed_title e]) s) as Has.
  apply emits_not_send_sent in Has.
  rewrite !sent_app, Has, (send_to_channel_all chunks hc sc Hch Hok).
  cbn [sent app].
  destruct (result (send_to_channel w chunks hc sc)); rewrite ?app_nil_r; [|done..].
  pose proof (emits_send_to_telegram w not_send announcement ltac:(done)
                ltac:(done) ltac:(done) ht st) as Hts.
  apply emits_not_send_sent in Hts. by rewrite Hts, app_nil_r.
Qed.

End WholeAnnouncement.

Lemma channel_gets_whole_announcement_witness :
  length (sent (events (process_entry calm_world 40 (lit "Feed A")
                          (entry_at 200 "second") [] ∅))) = 3%nat.
Proof.
  destruct (split_message
              (announcement_with (lit "Feed A") (entry_at 200 "second")
                 (lit "A summary.")) 40) as [chunks|] eqn:Hsplit;
    [|vm_compute in Hsplit; discriminate].
  rewrite (channel_gets_whole_announcement calm_world 40 (lit "Feed A")
             (entry_at 200 "second") [] ∅
             (announcement_with (lit "Feed A") (entry_at 200 "second")
                (lit "A summary.")) chunks);
    [|by intros ?|by intros ? ?|vm_compute; reflexivity|exact Hsplit].
  vm_compute in Hsplit. injection Hsplit as <-. reflexivity.
Defined.

(** ** The feeds a cycle parses *)

Lemma parsed_urls_app (t1 t2 : trace) :
  parsed_urls (t1 ++ t2) = parsed_urls t1 ++ parsed_urls t2.
Proof.
  induction t1 as [|ev t1 IH]; [done|]. destruct ev; simpl; by rewrite ?IH.
Qed.

Lemma emits_not_parse_parsed (t : trace) : Forall not_parse t -> parsed_urls t = [].
Proof. induction 1 as [|ev t Hev Ht IH]; [done|]. by destruct ev. Qed.

Section CycleParses.

Variable w : world.
Variable max_response_length : Z.

Lemma emits_process_entry_not_parse (feed_title : str) (e : entry) :
  emits not_parse (process_entry w max_response_length feed_title e).
Proof.
  unfold process_entry.
  apply emits_bind; [by apply emits_call|]. intros _ _.
  apply emits_bind; [by apply emits_announcement_of|]. intros a _.
  apply emits_bind; [apply emits_lift_option|]. intros chunks _.
  apply emits_bind; [|intros _ _; by apply emits_send_to_telegram].
  by apply emits_send_to_channel; [|apply Forall_true].
Qed.

Lemma emits_entries_loop_not_parse (feed_title : str) (last_ts : Z)
    (es : list entry) :
  forall new_last_ts,
    emits not_parse
      (entries_loop w max_response_length feed_title last_ts es new_last_ts).
Proof.
  induction es as [|e es IH]; intros n; cbn [entries_loop].
  - apply emits_ret.
  - destruct (published_parsed e) as [ts|]; [|apply IH].
    destruct (ts >? last_ts); [|apply IH].
    apply emits_bind; [apply emits_process_entry_not_parse|].
    intros _ _. apply IH.
Qed.

Lemma emits_hset_not_parse (feed_url : str) (ts : Z) :
  emits not_parse (hset w feed_url ts).
Proof.
  intros h s. unfold hset.
  destruct (redis_up w h); cbn [events]; by repeat constructor.
Qed.

Lemma poll_feed_parsed (feed : str * Z) h s :
  parsed_urls (events (poll_feed w max_response_length feed h s)) = [feed.1].
Proof.
  destruct feed as [feed_url last_ts].
  destruct (poll_feed_as_body w max_response_length feed_url last_ts h s)
    as [-> _].
  cbn [fst]. unfold poll_feed_body. rewrite bind_run.
  cbn [call events result store_after].
  destruct (feedparser_parse w h feed_url) as [pf|err|];
    cbn [events parsed_urls app]; [|done..].
  f_equal. apply emits_not_parse_parsed.
  destruct (bozo pf); [apply emits_ret|].
  apply emits_bind; [apply emits_entries_loop_not_parse|].
  intros ts _. destruct (ts >? last_ts);
    [apply emits_hset_not_parse | apply emits_ret].
Qed.

Lemma for_each_poll_feed_parsed (feeds : list (str * Z)) :
  forall h s,
    parsed_urls (events (for_each feeds (poll_feed w max_response_length) h s))
    `prefix_of` feeds.*1.
Proof.
  induction feeds as [|f feeds IH]; intros h s; [done|].
  cbn [for_each]. rewrite bind_run.
  pose proof (poll_feed_parsed f h s) as Hf.
  destruct (poll_feed w max_response_length f h s) as [ev st res].
  cbn [events result store_after] in *.
  destruct res as [[]|e|]; cbn [events fmap list_fmap].
  - rewrite parsed_urls_app, Hf. cbn [app]. apply prefix_cons, IH.
  - rewrite Hf. apply prefix_cons, prefix_nil.
  - rewrite Hf. apply prefix_cons, prefix_nil.
Qed.

Lemma parsed_then_sleep (m : M unit) (h : trace) (s : gmap str Z) :
  parsed_urls (events ((m;; call EvSleep (fun _ => Return tt)) h s))
  = parsed_urls (events (m h s)).
Proof.
  rewrite bind_run.
  destruct (result (m h s)) as [[]| |]; cbn [events call]; [|done..].
  rewrite parsed_urls_app. cbn [parsed_urls]. by rewrite app_nil_r.
Qed.

(** X26: a poll cycle hands to the feed parser only urls that are in the
    store, and none of them twice. *)
Theorem cycle_parses_each_feed_once (h : trace) (s : gmap str Z) :
  NoDup (parsed_urls (events (poll_cycle w max_response_length h s)))
  /\ forall url,
       url ∈ parsed_urls (events (poll_cycle w max_response_length h s)) ->
       url ∈ dom s.
Proof.
  assert (exists feeds,
    parsed_urls (events (poll_cycle w max_response_length h s))
      `prefix_of` (map_to_list feeds).*1
    /\ (feeds = s \/ feeds = ∅)) as (feeds & [k Hk] & Hfeeds).
  { unfold poll_cycle. rewrite bind_run.
    assert (exists ev feeds,
      get_feeds w h s = Run ev s (Return feeds)
      /\ parsed_urls ev = [] /\ (feeds = s \/ feeds = ∅))
      as (ev & feeds & -> & Hev & Hfeeds).
    { unfold get_feeds, hgetall. rewrite try_except_run.
      destruct (redis_up w h); cbn [events result store_after]; eauto 10. }
    exists feeds. split; [|done].
    cbn [events result store_after].
    rewrite parsed_urls_app, Hev. cbn [app].
    rewrite parsed_then_sleep. apply for_each_poll_feed_parsed. }
  pose proof (NoDup_fst_map_to_list feeds) as Hnd.
  rewrite Hk in Hnd. apply NoDup_app in Hnd as (Hnd & _ & _).
  split; [done|]. intros url Hin.
  assert (url ∈ (map_to_list feeds).*1) as Hurl.
  { rewrite Hk. apply elem_of_app. by left. }
  apply list_elem_of_fmap in Hurl as ([u v] & -> & Huv).
  apply elem_of_map_to_list in Huv. cbn [fst].
  destruct Hfeeds as [-> | ->]; [|by rewrite lookup_empty in Huv].
  apply elem_of_dom. by exists v.
Qed.

End CycleParses.
